(** * PushingToViewsBlockOutputStream: the materialized-view fan-out writer

    A shallow embedding of src/DataStreams/PushingToViewsBlockOutputStream.cpp.

    The writer owns a list of view records and an optional direct sink.  Its
    methods call collaborators that live outside the file (sinks, the live
    view write path, the select pipeline, the query-views log).  Those calls
    are recorded in a trace, and what a collaborator answers is a function of
    the trace so far, so a sink may behave differently on every call.

    The thread-local slot [current_thread] is a finite map from OS threads to
    the ThreadStatus they currently point to; an absent key is a null
    pointer.  Only the assignments of this file and the constructor and
    destructor of ThreadStatus write the slot.

    Left out: the text log (LOG_TRACE, LOG_DEBUG) and the stopwatch it
    prints, the event time of the runtime stats and the method getHeader.
    [construct] is the constructor on the path where no collaborator throws;
    [construct_or_throw] adds the failures of its collaborators. *)

From Stdlib Require Import NArith.
From stdpp Require Import base option list gmap strings pretty.

Local Open Scope N_scope.

(** ** Plain data *)

Definition StorageID := string.        (* identified by getNameForLogs() *)
Definition ThreadId := nat.            (* an OS thread *)
Definition ThreadStatusPtr := nat.     (* address of a ThreadStatus object *)

(** The two catch clauses of the stage runners tell DB::Exception from
    everything else. *)
Inductive ExceptionClass := DBException | ForeignException.

Record Exception := Build_Exception {
  ex_class   : ExceptionClass;
  ex_message : string
}.

(** How a call into the writer or into a collaborator ends.  [Terminated] is
    std::terminate. *)
Inductive Outcome :=
| Returned
| Threw (ex : Exception)
| Terminated.

(** [throw;] rethrows the exception the calling thread is handling; with
    none in flight the program is terminated. *)
Definition rethrow_current (handled : option Exception) : Outcome :=
  match handled with
  | Some ex => Threw ex
  | None => Terminated
  end.

Definition outcome_of (r : option Exception) : Outcome :=
  match r with
  | Some ex => Threw ex
  | None => Returned
  end.

Inductive ViewType := DEFAULT | MATERIALIZED | LIVE.

Inductive ViewStatus := INIT | WRITTEN_PREFIX | WRITTEN_BLOCK | WRITTEN_SUFFIX.

(** The settings the writer reads or overrides. *)
Record Settings := Build_Settings {
  deduplicate_blocks_in_dependent_materialized_views : bool;
  insert_deduplicate : bool;
  min_insert_block_size_rows : N;
  min_insert_block_size_bytes : N;
  min_insert_block_size_rows_for_materialized_views : N;
  min_insert_block_size_bytes_for_materialized_views : N;
  parallel_view_processing : bool;
  max_threads : N;
  log_queries : bool;
  log_query_views_enabled : bool;      (* the setting log_query_views *)
  log_queries_min_query_duration_ms : N
}.

Definition set_insert_deduplicate (v : bool) (c : Settings) : Settings :=
  {| deduplicate_blocks_in_dependent_materialized_views :=
       deduplicate_blocks_in_dependent_materialized_views c;
     insert_deduplicate := v;
     min_insert_block_size_rows := min_insert_block_size_rows c;
     min_insert_block_size_bytes := min_insert_block_size_bytes c;
     min_insert_block_size_rows_for_materialized_views :=
       min_insert_block_size_rows_for_materialized_views c;
     min_insert_block_size_bytes_for_materialized_views :=
       min_insert_block_size_bytes_for_materialized_views c;
     parallel_view_processing := parallel_view_processing c;
     max_threads := max_threads c;
     log_queries := log_queries c;
     log_query_views_enabled := log_query_views_enabled c;
     log_queries_min_query_duration_ms := log_queries_min_query_duration_ms c |}.

Definition set_min_insert_block_size_rows (v : N) (c : Settings) : Settings :=
  {| deduplicate_blocks_in_dependent_materialized_views :=
       deduplicate_blocks_in_dependent_materialized_views c;
     insert_deduplicate := insert_deduplicate c;
     min_insert_block_size_rows := v;
     min_insert_block_size_bytes := min_insert_block_size_bytes c;
     min_insert_block_size_rows_for_materialized_views :=
       min_insert_block_size_rows_for_materialized_views c;
     min_insert_block_size_bytes_for_materialized_views :=
       min_insert_block_size_bytes_for_materialized_views c;
     parallel_view_processing := parallel_view_processing c;
     max_threads := max_threads c;
     log_queries := log_queries c;
     log_query_views_enabled := log_query_views_enabled c;
     log_queries_min_query_duration_ms := log_queries_min_query_duration_ms c |}.

Definition set_min_insert_block_size_bytes (v : N) (c : Settings) : Settings :=
  {| deduplicate_blocks_in_dependent_materialized_views :=
       deduplicate_blocks_in_dependent_materialized_views c;
     insert_deduplicate := insert_deduplicate c;
     min_insert_block_size_rows := min_insert_block_size_rows c;
     min_insert_block_size_bytes := v;
     min_insert_block_size_rows_for_materialized_views :=
       min_insert_block_size_rows_for_materialized_views c;
     min_insert_block_size_bytes_for_materialized_views :=
       min_insert_block_size_bytes_for_materialized_views c;
     parallel_view_processing := parallel_view_processing c;
     max_threads := max_threads c;
     log_queries := log_queries c;
     log_query_views_enabled := log_query_views_enabled c;
     log_queries_min_query_duration_ms := log_queries_min_query_duration_ms c |}.

(** What the constructor hands to a view as its downstream sink. *)
Inductive BlockOutputStream :=
| InsertInto (inner_table : StorageID) (columns : list string) (ctx : Settings)
    (* io.out of InterpreterInsertQuery(insert, insert_context) *)
| PushingToViews (table : StorageID) (ctx : Settings) (no_destination : bool).
    (* a nested PushingToViewsBlockOutputStream *)

Record ViewRuntimeStats := Build_ViewRuntimeStats {
  target_name   : string;
  type          : ViewType;
  thread_status : ThreadStatusPtr;
  elapsed_ms    : N;
  status        : ViewStatus
}.

Definition setStatus (st : ViewStatus) (r : ViewRuntimeStats) : ViewRuntimeStats :=
  {| target_name := target_name r; type := type r;
     thread_status := thread_status r; elapsed_ms := elapsed_ms r;
     status := st |}.

Definition add_elapsed (ms : N) (r : ViewRuntimeStats) : ViewRuntimeStats :=
  {| target_name := target_name r; type := type r;
     thread_status := thread_status r;
     elapsed_ms := (elapsed_ms r + ms) mod 2 ^ 64;    (* UInt64 += *)
     status := status r |}.

(** The storage engines the constructor and [write] tell apart by
    dynamic_cast. *)
Inductive StorageKind (Query : Type) :=
| StorageMaterializedView (target_table : StorageID) (inner_query : Query)
| StorageLiveView (inner_query : Query)
| StorageOther.
Arguments StorageMaterializedView {Query} _ _.
Arguments StorageLiveView {Query} _.
Arguments StorageOther {Query}.

Record Storage (Query : Type) := Build_Storage {
  storage_id            : StorageID;
  storage_kind          : StorageKind Query;
  supportsDeduplication : bool;
  (* storage->write(...) hands back a ReplicatedMergeTreeSink *)
  writes_replicated     : bool
}.
Arguments Build_Storage {Query} _ _ _ _.
Arguments storage_id {Query} _.
Arguments storage_kind {Query} _.
Arguments supportsDeduplication {Query} _.
Arguments writes_replicated {Query} _.

Definition is_live_view {Query} (st : Storage Query) : bool :=
  match storage_kind st with
  | StorageLiveView _ => true
  | _ => false
  end.

(** ViewInfo; [exception] is [None] when the exception_ptr is null. *)
Record ViewInfo (Query : Type) := Build_ViewInfo {
  query         : option Query;
  table_id      : StorageID;
  out           : BlockOutputStream;
  exception     : option Exception;
  runtime_stats : ViewRuntimeStats
}.
Arguments Build_ViewInfo {Query} _ _ _ _ _.
Arguments query {Query} _.
Arguments table_id {Query} _.
Arguments out {Query} _.
Arguments exception {Query} _.
Arguments runtime_stats {Query} _.

Definition set_exception {Query} (e : option Exception) (v : ViewInfo Query) :=
  {| query := query v; table_id := table_id v; out := out v;
     exception := e; runtime_stats := runtime_stats v |}.

Definition set_runtime_stats {Query} (r : ViewRuntimeStats) (v : ViewInfo Query) :=
  {| query := query v; table_id := table_id v; out := out v;
     exception := exception v; runtime_stats := r |}.

(** Calls that leave the writer and can change something outside it.  A view
    is named by its [table_id].  What only reads a collaborator (getHeader,
    getStorageID, lastBlockIsDuplicate, the settings) is answered by the
    records below and leaves no event. *)
Inductive Event (Block Query : Type) :=
| OutputWritePrefix
| OutputWrite (block : Block)
| OutputWriteSuffix
| OutputFlush
| WriteIntoLiveView (block : Block)
| ViewOutWritePrefix (view : StorageID)
| ViewOutWrite (view : StorageID) (block : Block)
| ViewOutWriteSuffix (view : StorageID)
| ViewOutFlush (view : StorageID)
| SetLastRusage (ts : ThreadStatusPtr)
| UpdatePerformanceCounters (ts : ThreadStatusPtr)
| LogToQueryViewsLog (view : ViewInfo Query).
Arguments OutputWritePrefix {Block Query}.
Arguments OutputWrite {Block Query} _.
Arguments OutputWriteSuffix {Block Query}.
Arguments OutputFlush {Block Query}.
Arguments WriteIntoLiveView {Block Query} _.
Arguments ViewOutWritePrefix {Block Query} _.
Arguments ViewOutWrite {Block Query} _ _.
Arguments ViewOutWriteSuffix {Block Query} _.
Arguments ViewOutFlush {Block Query} _.
Arguments SetLastRusage {Block Query} _.
Arguments UpdatePerformanceCounters {Block Query} _.
Arguments LogToQueryViewsLog {Block Query} _.

(** A call on a sink: the direct sink, the live view write path or a view's
    downstream sink. *)
Definition is_sink_call {Block Query} (ev : Event Block Query) : bool :=
  match ev with
  | OutputWritePrefix | OutputWrite _ | OutputWriteSuffix | OutputFlush
  | WriteIntoLiveView _
  | ViewOutWritePrefix _ | ViewOutWrite _ _ | ViewOutWriteSuffix _
  | ViewOutFlush _ => true
  | _ => false
  end.

(** A stage body of a view: a call on its downstream sink. *)
Definition is_view_call {Block Query} (ev : Event Block Query) : bool :=
  match ev with
  | ViewOutWritePrefix _ | ViewOutWrite _ _ | ViewOutWriteSuffix _
  | ViewOutFlush _ => true
  | _ => false
  end.

(** The collaborators.  Every answer may depend on the calls made so far. *)
Record Collaborators (Block Query : Type) := Build_Collaborators {
  (* Nested::validateArraySizes: the exception it throws, if any *)
  validateArraySizes : Block -> option Exception;
  (* Exception::addMessage: the exception with the text added *)
  addMessage : string -> Exception -> Exception;
  (* Block::operator bool *)
  block_has_columns : Block -> bool;
  (* the exception a call ends with, if any *)
  answer : list (Event Block Query) -> Event Block Query -> option Exception;
  (* the stream built for a view with a query: select over the block,
     materialized, squashed to (rows, bytes), converted to the header of
     [out]; what its read() returns, call after call, and the exception
     that ends it (thrown while it is built, by readPrefix, by a read() or
     by readSuffix), if any *)
  view_stream : option Settings -> Query -> Block -> N -> N ->
                BlockOutputStream -> list Block * option Exception;
  (* ReplicatedMergeTreeSink::lastBlockIsDuplicate *)
  lastBlockIsDuplicate : list (Event Block Query) -> bool;
  (* Stopwatch::elapsedMilliseconds of the watch of a stage *)
  elapsedMilliseconds : list (Event Block Query) -> N;
  (* the pool thread that runs the n-th job of a pool *)
  pool_worker : list (Event Block Query) -> nat -> ThreadId;
  (* whether the n-th job loaded exception_count before the increments
     of the jobs that took effect before it *)
  pool_stale_load : list (Event Block Query) -> nat -> bool;
  (* what ~ThreadStatus leaves in current_thread *)
  thread_status_dtor : ThreadStatusPtr -> option ThreadStatusPtr
}.
Arguments Build_Collaborators {Block Query} _ _ _ _ _ _ _ _ _ _.
Arguments validateArraySizes {Block Query} _ _.
Arguments addMessage {Block Query} _ _ _.
Arguments block_has_columns {Block Query} _ _.
Arguments answer {Block Query} _ _ _.
Arguments view_stream {Block Query} _ _ _ _ _ _ _.
Arguments lastBlockIsDuplicate {Block Query} _ _.
Arguments elapsedMilliseconds {Block Query} _ _.
Arguments pool_worker {Block Query} _ _ _.
Arguments pool_stale_load {Block Query} _ _ _.
Arguments thread_status_dtor {Block Query} _ _.

(** The state outside the writer: the thread-local slots and the calls made
    so far, oldest first. *)
Record World (Block Query : Type) := Build_World {
  current_thread : gmap ThreadId ThreadStatusPtr;
  trace          : list (Event Block Query)
}.
Arguments Build_World {Block Query} _ _.
Arguments current_thread {Block Query} _.
Arguments trace {Block Query} _.

(** The writer's members. *)
Record Writer (Query : Type) := Build_Writer {
  storage           : Storage Query;
  context           : Settings;
  select_context    : option Settings;
  insert_context    : option Settings;
  table_locks       : list StorageID;
  views             : list (ViewInfo Query);
  output            : bool;      (* output is not null *)
  replicated_output : bool       (* replicated_output is not null *)
}.
Arguments Build_Writer {Query} _ _ _ _ _ _ _ _.
Arguments storage {Query} _.
Arguments context {Query} _.
Arguments select_context {Query} _.
Arguments insert_context {Query} _.
Arguments table_locks {Query} _.
Arguments views {Query} _.
Arguments output {Query} _.
Arguments replicated_output {Query} _.

Definition set_views {Query} (vs : list (ViewInfo Query)) (w : Writer Query) :=
  {| storage := storage w; context := context w;
     select_context := select_context w; insert_context := insert_context w;
     table_locks := table_locks w; views := vs; output := output w;
     replicated_output := replicated_output w |}.

(** Storing a pointer, null or not, in the slot of one thread. *)
Definition assign_slot (tid : ThreadId) (p : option ThreadStatusPtr)
    (slots : gmap ThreadId ThreadStatusPtr) : gmap ThreadId ThreadStatusPtr :=
  match p with
  | Some ts => <[tid := ts]> slots
  | None => delete tid slots
  end.

(** What the constructor asks of the catalog, of the dependents and of the
    allocator. *)
Record Catalog (Query : Type) := Build_Catalog {
  (* DatabaseCatalog::getDependencies *)
  getDependencies : StorageID -> list StorageID;
  (* DatabaseCatalog::getTable *)
  getTable : StorageID -> Storage Query;
  (* column names of InterpreterSelectQuery(query, ...).getSampleBlock() *)
  getSampleBlock : Query -> list string;
  (* getColumns().hasPhysical(name) of a table's metadata snapshot *)
  hasPhysical : StorageID -> string -> bool;
  (* the address of the ThreadStatus made for the n-th view *)
  new_ThreadStatus : nat -> ThreadStatusPtr;
  (* what ThreadStatus() leaves in current_thread *)
  thread_status_ctor : ThreadStatusPtr -> option ThreadStatusPtr
}.
Arguments Build_Catalog {Query} _ _ _ _ _ _.
Arguments getDependencies {Query} _ _.
Arguments getTable {Query} _ _.
Arguments getSampleBlock {Query} _ _.
Arguments hasPhysical {Query} _ _ _.
Arguments new_ThreadStatus {Query} _ _.
Arguments thread_status_ctor {Query} _ _.

(** The exceptions the constructor's collaborators throw, if any. *)
Record Faults := Build_Faults {
  (* checkStackSize, storage->lockForShare, getDependencies, the copies of
     the context (lines 44-79) *)
  entry_fault : option Exception;
  (* for the n-th dependency: getTable, lockForShare, the two interpreters
     or the constructor of the nested writer (lines 83-136) *)
  binding_fault : nat -> option Exception;
  (* what the call that throws for the n-th dependency has left in
     current_thread, when it has changed it: a nested constructor that
     throws destroys the ThreadStatus it has made *)
  binding_leaves : nat -> option (option ThreadStatusPtr);
  (* for the n-th dependency: attachQueryContext on its new ThreadStatus,
     emplace_back (lines 144-148) *)
  attach_fault : nat -> option Exception;
  (* storage->write, metadata_snapshot->check, the sink's wrapper
     (lines 155-160) *)
  destination_fault : option Exception
}.

(** ** The writer's code *)

Section Writer.

Variables Block Query : Type.
Variable env : Collaborators Block Query.

Local Abbreviation ViewInfo := (ViewInfo Query).
Local Abbreviation Writer := (Writer Query).
Local Abbreviation World := (World Block Query).
Local Abbreviation Event := (Event Block Query).

Definition emit (ev : Event) (s : World) : World :=
  {| current_thread := current_thread s; trace := trace s ++ [ev] |}.

(** A call on a collaborator: it is recorded, and it answers from the calls
    made before it. *)
Definition invoke (ev : Event) (s : World) : option Exception * World :=
  (answer env (trace s) ev, emit ev s).

(** [current_thread = p] executed by thread [tid]. *)
Definition set_current_thread (tid : ThreadId) (p : option ThreadStatusPtr)
    (s : World) : World :=
  {| current_thread := assign_slot tid p (current_thread s);
     trace := trace s |}.

(** log_query_views (lines 486-507).  An exception of logToQueryViewsLog is
    caught and traced. *)
Fixpoint log_query_views_loop (min_query_duration : N) (vs : list ViewInfo)
    (s : World) : World :=
  match vs with
  | [] => s
  | view :: rest =>
      if negb (min_query_duration =? 0)
         && (elapsed_ms (runtime_stats view) <=? min_query_duration)
      then log_query_views_loop min_query_duration rest s
      else log_query_views_loop min_query_duration rest
             (snd (invoke (LogToQueryViewsLog view) s))
  end.

Definition log_query_views (w : Writer) (s : World) : World :=
  let settings := context w in
  let min_query_duration := log_queries_min_query_duration_ms settings in
  match views w with
  | [] => s
  | _ :: _ =>
      if negb (log_queries settings) || negb (log_query_views_enabled settings)
      then s
      else log_query_views_loop min_query_duration (views w) s
  end.

(** check_exceptions_in_views (lines 474-484). *)
Fixpoint check_exceptions_loop (w : Writer) (vs : list ViewInfo) (s : World)
    : Outcome * World :=
  match vs with
  | [] => (Returned, s)
  | view :: rest =>
      match exception view with
      | Some ex => (Threw ex, log_query_views w s)
      | None => check_exceptions_loop w rest s
      end
  end.

Definition check_exceptions_in_views (w : Writer) (s : World) : Outcome * World :=
  check_exceptions_loop w (views w) s.

(** *** The stage runners (lines 331-472)

    process, process_prefix and process_suffix share every line but the try
    body, the status set on success and the text added to a DB::Exception.
    [run_stage] is that shared code, executed by thread [tid]. *)

Definition capture (text : string) (view : ViewInfo) (ex : Exception) : ViewInfo :=
  match ex_class ex with
  | DBException =>
      (* catch (Exception & ex) *)
      set_exception (Some (addMessage env (text +:+ table_id view) ex)) view
  | ForeignException =>
      (* catch (...) *)
      set_exception (Some ex) view
  end.

Definition run_stage (tid : ThreadId) (text : string) (done : ViewStatus)
    (body : World -> option Exception * World)
    (view : ViewInfo) (s : World) : ViewInfo * World :=
  let ts := thread_status (runtime_stats view) in
  let running_thread := current_thread s !! tid in
  let s1 := emit (SetLastRusage ts) (set_current_thread tid (Some ts) s) in
  let '(thrown, s2) := body s1 in
  let view1 :=
    match thrown with
    | None => set_runtime_stats (setStatus done (runtime_stats view)) view
    | Some ex => capture text view ex
    end in
  let view2 :=
    set_runtime_stats
      (add_elapsed (elapsedMilliseconds env (trace s2)) (runtime_stats view1))
      view1 in
  (* SCOPE_EXIT; the slot still holds ts *)
  let s3 := set_current_thread tid running_thread
              (emit (UpdatePerformanceCounters ts) s2) in
  (view2, s3).

(** The while loop of process (lines 384-388), over what the successive
    in->read() return.  The loop ends at the first block without columns:
    what the stream would have returned after it is not read. *)
Fixpoint write_blocks (view : ViewInfo) (blocks : list Block) (s : World)
    : option Exception * World :=
  match blocks with
  | [] => (None, s)
  | result_block :: rest =>
      if block_has_columns env result_block then
        match validateArraySizes env result_block with
        | Some ex => (Some ex, s)
        | None =>
            match invoke (ViewOutWrite (table_id view) result_block) s with
            | (Some ex, s') => (Some ex, s')
            | (None, s') => write_blocks view rest s'
            end
        end
      else (None, s)
  end.

(** The try body of process (lines 345-391).  The stream of a view with a
    query reads view.out->getHeader() for the conversion (line 377): [out]
    is an argument of [view_stream]. *)
Definition process_body (w : Writer) (block : Block) (view : ViewInfo)
    (s : World) : option Exception * World :=
  let '(blocks, failure) :=
    match query view with
    | Some q =>
        view_stream env (select_context w) q block
          (min_insert_block_size_rows (context w))
          (min_insert_block_size_bytes (context w))
          (out view)
    | None =>
        (* OneBlockInputStream: the first read() returns the block *)
        ([block], None)
    end in
  match write_blocks view blocks s with
  | (Some ex, s') => (Some ex, s')
  | (None, s') => (failure, s')
  end.

Definition process (w : Writer) (tid : ThreadId) (block : Block)
    (view : ViewInfo) (s : World) : ViewInfo * World :=
  run_stage tid "while pushing to view " WRITTEN_BLOCK
    (process_body w block view) view s.

Definition process_prefix (tid : ThreadId) (view : ViewInfo) (s : World)
    : ViewInfo * World :=
  run_stage tid "while writing prefix to view " WRITTEN_PREFIX
    (invoke (ViewOutWritePrefix (table_id view))) view s.

Definition process_suffix (tid : ThreadId) (view : ViewInfo) (s : World)
    : ViewInfo * World :=
  run_stage tid "while writing suffix to view " WRITTEN_SUFFIX
    (invoke (ViewOutWriteSuffix (table_id view))) view s.

(** *** The fan-out of write and writeSuffix *)

(** The for loop with break (lines 236-244 and 301-309). *)
Fixpoint run_sequentially (stage : ViewInfo -> World -> ViewInfo * World)
    (vs : list ViewInfo) (s : World) : list ViewInfo * World * bool :=
  match vs with
  | [] => ([], s, false)
  | view :: rest =>
      let '(view', s') := stage view s in
      match exception view' with
      | Some _ => (view' :: rest, s', true)
      | None =>
          let '(rest', s'', exception_happened) :=
            run_sequentially stage rest s' in
          (view' :: rest', s'', exception_happened)
      end
  end.

(** The jobs scheduled on the pool (lines 219-231 and 284-296), at the
    granularity of a job: jobs take effect one at a time in view order, each
    on the pool thread [pool_worker] gives it.  What is left of the
    interleaving is whether a job loaded [exception_count] before the
    increments of the jobs before it ([pool_stale_load]): it then read 0.
    [exception_count] is a std::atomic_uint8_t. *)
Fixpoint run_in_pool (stage : ThreadId -> ViewInfo -> World -> ViewInfo * World)
    (job : nat) (vs : list ViewInfo) (exception_count : N) (s : World)
    : list ViewInfo * World * N :=
  match vs with
  | [] => ([], s, exception_count)
  | view :: rest =>
      let loaded :=
        if pool_stale_load env (trace s) job then 0 else exception_count in
      if negb (loaded =? 0)
      then
        let '(rest', s', count) :=
          run_in_pool stage (S job) rest exception_count s in
        (view :: rest', s', count)
      else
        let '(view', s1) := stage (pool_worker env (trace s) job) view s in
        let count1 :=
          match exception view' with
          | Some _ => (exception_count + 1) mod 256
          | None => exception_count
          end in
        let '(rest', s', count) := run_in_pool stage (S job) rest count1 s1 in
        (view' :: rest', s', count)
  end.

(** std::min(views.size(), parallel_view_processing ? max_threads : 1) *)
Definition pool_size (w : Writer) : N :=
  N.min (N.of_nat (length (views w)))
        (if parallel_view_processing (context w)
         then max_threads (context w) else 1).

(** Lines 212-245 and 277-310: the views after the stage, and
    exception_happened. *)
Definition fan_out (w : Writer) (tid : ThreadId)
    (stage : ThreadId -> ViewInfo -> World -> ViewInfo * World) (s : World)
    : list ViewInfo * World * bool :=
  if 1 <? pool_size w
  then
    let '(views', s', exception_count) := run_in_pool stage 0 (views w) 0 s in
    (views', s', negb (exception_count =? 0))
  else run_sequentially (stage tid) (views w) s.

(** *** write (lines 184-248), called on thread [tid] *)

(** Lines 193-203. *)
Definition write_to_destination (w : Writer) (block : Block) (s : World)
    : Outcome * World :=
  if is_live_view (storage w)
  then
    let '(thrown, s') := invoke (WriteIntoLiveView block) s in
    (outcome_of thrown, s')
  else if output w
  then
    let '(thrown, s') := invoke (OutputWrite block) s in
    (outcome_of thrown, s')
  else (Returned, s).

(** Lines 205-247. *)
Definition push_to_views (w : Writer) (tid : ThreadId) (block : Block)
    (s : World) : Outcome * Writer * World :=
  match views w with
  | [] => (Returned, w, s)
  | _ :: _ =>
      if negb (deduplicate_blocks_in_dependent_materialized_views (context w))
         && replicated_output w
         && lastBlockIsDuplicate env (trace s)
      then (Returned, w, s)
      else
        let '(views', s', exception_happened) :=
          fan_out w tid (fun t => process w t block) s in
        let w' := set_views views' w in
        if exception_happened
        then let '(o, s'') := check_exceptions_in_views w' s' in (o, w', s'')
        else (Returned, w', s')
  end.

Definition write (w : Writer) (tid : ThreadId) (block : Block) (s : World)
    : Outcome * Writer * World :=
  match validateArraySizes env block with
  | Some ex => (Threw ex, w, s)
  | None =>
      match write_to_destination w block s with
      | (Returned, s1) => push_to_views w tid block s1
      | (o, s1) => (o, w, s1)
      end
  end.

(** *** writePrefix (lines 250-264); [handled] is the exception the caller
    is handling when it calls, if any *)
Definition writePrefix (w : Writer) (tid : ThreadId)
    (handled : option Exception) (s : World) : Outcome * Writer * World :=
  match (if output w then invoke OutputWritePrefix s else (None, s)) with
  | (Some ex, s1) => (Threw ex, w, s1)
  | (None, s1) =>
      let '(views', s2, failed) :=
        run_sequentially (process_prefix tid) (views w) s1 in
      let w' := set_views views' w in
      if failed
      then (rethrow_current handled, w', log_query_views w' s2)
      else (Returned, w', s2)
  end.

(** *** writeSuffix (lines 266-320) *)
Definition writeSuffix (w : Writer) (tid : ThreadId) (s : World)
    : Outcome * Writer * World :=
  match (if output w then invoke OutputWriteSuffix s else (None, s)) with
  | (Some ex, s1) => (Threw ex, w, s1)
  | (None, s1) =>
      match views w with
      | [] => (Returned, w, s1)
      | _ :: _ =>
          let '(views', s2, exception_happened) :=
            fan_out w tid process_suffix s1 in
          let w' := set_views views' w in
          match (if exception_happened
                 then check_exceptions_in_views w' s2
                 else (Returned, s2)) with
          | (Returned, s3) => (Returned, w', log_query_views w' s3)
          | (o, s3) => (o, w', s3)
          end
      end
  end.

(** *** flush (lines 322-329) *)
Fixpoint flush_views (vs : list ViewInfo) (s : World) : Outcome * World :=
  match vs with
  | [] => (Returned, s)
  | view :: rest =>
      match invoke (ViewOutFlush (table_id view)) s with
      | (Some ex, s') => (Threw ex, s')
      | (None, s') => flush_views rest s'
      end
  end.

Definition flush (w : Writer) (s : World) : Outcome * World :=
  match (if output w then invoke OutputFlush s else (None, s)) with
  | (Some ex, s1) => (Threw ex, s1)
  | (None, s1) => flush_views (views w) s1
  end.

(** *** The destructor (lines 164-170) *)

(** views.clear(): every view's ThreadStatus is destroyed on the calling
    thread. *)
Definition views_clear (vs : list ViewInfo) (tid : ThreadId) (s : World) : World :=
  fold_left
    (fun s' view =>
       set_current_thread tid
         (thread_status_dtor env (thread_status (runtime_stats view))) s')
    vs s.

Definition destroy (w : Writer) (tid : ThreadId) (s : World) : Writer * World :=
  let running_thread := current_thread s !! tid in
  let s1 := views_clear (views w) tid s in
  (set_views [] w, set_current_thread tid running_thread s1).

(** *** The constructor (lines 32-162)

    The path on which no collaborator throws (stack check, locks, catalog
    lookups, interpreters, storage->write, the metadata check). *)

Variable catalog : Catalog Query.

(** Lines 63-79: the contexts made when there are dependencies. *)
Definition make_insert_context (context : Settings)
    (disable_deduplication_for_children : bool) : Settings :=
  let c0 := context in                       (* Context::createCopy *)
  let c1 := if disable_deduplication_for_children
            then set_insert_deduplicate false c0 else c0 in
  let c2 := if negb (min_insert_block_size_rows_for_materialized_views c1 =? 0)
            then set_min_insert_block_size_rows
                   (min_insert_block_size_rows_for_materialized_views c1) c1
            else c1 in
  if negb (min_insert_block_size_bytes_for_materialized_views c2 =? 0)
  then set_min_insert_block_size_bytes
         (min_insert_block_size_bytes_for_materialized_views c2) c2
  else c2.

(** Lines 81-150: one view record per dependency. *)
Fixpoint bind_views (insert_ctx : Settings) (tid : ThreadId) (n : nat)
    (dependencies : list StorageID) (s : World)
    : list ViewInfo * list StorageID * World :=
  match dependencies with
  | [] => ([], [], s)
  | database_table :: rest =>
      let dependent_table := getTable catalog database_table in
      let '(query, out, type, target_name, locks) :=
        match storage_kind dependent_table with
        | StorageMaterializedView inner_table_id inner_query =>
            (Some inner_query,
             InsertInto inner_table_id
               (List.filter (hasPhysical catalog inner_table_id)
                            (getSampleBlock catalog inner_query))
               insert_ctx,
             MATERIALIZED, inner_table_id, [database_table])
        | StorageLiveView inner_query =>
            (Some inner_query,
             PushingToViews database_table insert_ctx true,
             LIVE, database_table, [])
        | StorageOther =>
            (None,
             PushingToViews database_table insert_ctx false,
             DEFAULT, database_table, [])
        end in
      let running_thread := current_thread s !! tid in
      (* ThreadStatus() changes current_thread *)
      let thread_status := new_ThreadStatus catalog n in
      let s1 := set_current_thread tid
                  (thread_status_ctor catalog thread_status) s in
      let runtime_stats :=
        {| target_name := target_name; type := type;
           thread_status := thread_status; elapsed_ms := 0; status := INIT |} in
      let view :=
        {| query := query; table_id := database_table; out := out;
           exception := None; runtime_stats := runtime_stats |} in
      let s2 := set_current_thread tid running_thread s1 in
      let '(views', locks', s3) := bind_views insert_ctx tid (S n) rest s2 in
      (view :: views', locks ++ locks', s3)
  end.

Definition construct (storage_ : Storage Query) (context_ : Settings)
    (no_destination : bool) (tid : ThreadId) (s : World) : Writer * World :=
  let disable_deduplication_for_children :=
    if negb (deduplicate_blocks_in_dependent_materialized_views context_)
    then negb no_destination && supportsDeduplication storage_
    else false in
  let dependencies := getDependencies catalog (storage_id storage_) in
  let contexts :=
    match dependencies with
    | [] => None
    | _ :: _ =>
        Some (context_,
              make_insert_context context_ disable_deduplication_for_children)
    end in
  let '(views_, locks, s') :=
    match contexts with
    | None => ([], [], s)
    | Some (_, insert_ctx) => bind_views insert_ctx tid 0 dependencies s
    end in
  ({| storage := storage_;
      context := context_;
      select_context := fst <$> contexts;
      insert_context := snd <$> contexts;
      table_locks := storage_id storage_ :: locks;
      views := views_;
      output := negb no_destination;
      replicated_output := negb no_destination && writes_replicated storage_ |},
   s').

(** *** The constructor when a collaborator throws

    An exception leaves the constructor at once.  What has been made so far
    is destroyed, the local ThreadStatus pointer first and the member
    [views] after it; the body of the destructor (lines 164-170) is not
    run. *)

Variable faults : Faults.

(** Lines 81-150: the exception thrown, if any, the view records made before
    it and their locks. *)
Fixpoint bind_views_or_throw (insert_ctx : Settings) (tid : ThreadId) (n : nat)
    (dependencies : list StorageID) (s : World)
    : option Exception * list ViewInfo * list StorageID * World :=
  match dependencies with
  | [] => (None, [], [], s)
  | database_table :: rest =>
      match binding_fault faults n with
      | Some ex =>
          (Some ex, [], [],
           match binding_leaves faults n with
           | Some slot => set_current_thread tid slot s
           | None => s
           end)
      | None =>
          let running_thread := current_thread s !! tid in
          let thread_status := new_ThreadStatus catalog n in
          let s1 := set_current_thread tid
                      (thread_status_ctor catalog thread_status) s in
          match attach_fault faults n with
          | Some ex =>
              (* the local shared_ptr is the only owner: ~ThreadStatus *)
              (Some ex, [], [],
               set_current_thread tid
                 (thread_status_dtor env thread_status) s1)
          | None =>
              (* the record of this dependency, as bind_views makes it *)
              let '(made, locks, _) :=
                bind_views insert_ctx tid n [database_table] s in
              let s2 := set_current_thread tid running_thread s1 in
              let '(thrown, views', locks', s3) :=
                bind_views_or_throw insert_ctx tid (S n) rest s2 in
              (thrown, made ++ views', locks ++ locks', s3)
          end
      end
  end.

Definition construct_or_throw (storage_ : Storage Query) (context_ : Settings)
    (no_destination : bool) (tid : ThreadId) (s : World)
    : (Exception + Writer) * World :=
  match entry_fault faults with
  | Some ex => (inl ex, s)
  | None =>
      let disable_deduplication_for_children :=
        if negb (deduplicate_blocks_in_dependent_materialized_views context_)
        then negb no_destination && supportsDeduplication storage_
        else false in
      let dependencies := getDependencies catalog (storage_id storage_) in
      let contexts :=
        match dependencies with
        | [] => None
        | _ :: _ =>
            Some (context_,
                  make_insert_context context_ disable_deduplication_for_children)
        end in
      let '(thrown, views_, locks, s') :=
        bind_views_or_throw
          (make_insert_context context_ disable_deduplication_for_children)
          tid 0 dependencies s in
      match (match thrown with
             | Some ex => Some ex
             | None => if no_destination then None else destination_fault faults
             end) with
      | Some ex => (inl ex, views_clear views_ tid s')
      | None =>
          (inr {| storage := storage_;
                  context := context_;
                  select_context := fst <$> contexts;
                  insert_context := snd <$> contexts;
                  table_locks := storage_id storage_ :: locks;
                  views := views_;
                  output := negb no_destination;
                  replicated_output :=
                    negb no_destination && writes_replicated storage_ |},
           s')
      end
  end.

End Writer.

Arguments emit {Block Query} ev s.
Arguments invoke {Block Query} env ev s.
Arguments set_current_thread {Block Query} tid p s.
Arguments log_query_views_loop {Block Query} env min_query_duration vs s.
Arguments log_query_views {Block Query} env w s.
Arguments check_exceptions_loop {Block Query} env w vs s.
Arguments check_exceptions_in_views {Block Query} env w s.
Arguments capture {Block Query} env text view ex.
Arguments run_stage {Block Query} env tid text done body view s.
Arguments write_blocks {Block Query} env view blocks s.
Arguments process_body {Block Query} env w block view s.
Arguments process {Block Query} env w tid block view s.
Arguments process_prefix {Block Query} env tid view s.
Arguments process_suffix {Block Query} env tid view s.
Arguments run_sequentially {Block Query} stage vs s.
Arguments run_in_pool {Block Query} env stage job vs exception_count s.
Arguments pool_size {Query} w.
Arguments fan_out {Block Query} env w tid stage s.
Arguments write_to_destination {Block Query} env w block s.
Arguments push_to_views {Block Query} env w tid block s.
Arguments write {Block Query} env w tid block s.
Arguments writePrefix {Block Query} env w tid handled s.
Arguments writeSuffix {Block Query} env w tid s.
Arguments flush_views {Block Query} env vs s.
Arguments flush {Block Query} env w s.
Arguments views_clear {Block Query} env vs tid s.
Arguments destroy {Block Query} env w tid s.
Arguments bind_views {Block Query} catalog insert_ctx tid n dependencies s.
Arguments construct {Block Query} catalog storage_ context_ no_destination tid s.
Arguments bind_views_or_throw {Block Query} env catalog faults insert_ctx tid n
  dependencies s.
Arguments construct_or_throw {Block Query} env catalog faults storage_ context_
  no_destination tid s.

(** ** Vocabulary of the properties *)

Section Vocabulary.

Context {Block Query : Type}.

Local Abbreviation ViewInfo := (ViewInfo Query).
Local Abbreviation Writer := (Writer Query).
Local Abbreviation Event := (Event Block Query).

(** The view holds a captured exception. *)
Definition view_failed (view : ViewInfo) : Prop := exception view <> None.

(** The calls flush makes when nothing throws. *)
Definition flush_calls (w : Writer) : list Event :=
  (if output w then [OutputFlush] else [])
    ++ map (fun view => ViewOutFlush (table_id view)) (views w).

(** The calls of one prefix stage and of one suffix stage. *)
Definition prefix_events (view : ViewInfo) : list Event :=
  [SetLastRusage (thread_status (runtime_stats view));
   ViewOutWritePrefix (table_id view);
   UpdatePerformanceCounters (thread_status (runtime_stats view))].

Definition suffix_events (view : ViewInfo) : list Event :=
  [SetLastRusage (thread_status (runtime_stats view));
   ViewOutWriteSuffix (table_id view);
   UpdatePerformanceCounters (thread_status (runtime_stats view))].

(** The views log_query_views writes a record for. *)
Definition logged_views (w : Writer) : list ViewInfo :=
  if negb (log_queries (context w)) || negb (log_query_views_enabled (context w))
  then []
  else
    List.filter
      (fun view =>
         negb (negb (log_queries_min_query_duration_ms (context w) =? 0)
               && (elapsed_ms (runtime_stats view)
                   <=? log_queries_min_query_duration_ms (context w))))
      (views w).

(** [needle] occurs in [hay]. *)
Definition contains (needle hay : string) : Prop :=
  exists before after, hay = before +:+ needle +:+ after.

(** What the stage runners need of Exception::addMessage: the text it is
    given occurs in the message of the exception it leaves. *)
Definition addMessage_adds (env : Collaborators Block Query) : Prop :=
  forall arg ex, contains arg (ex_message (addMessage env arg ex)).

(** A DB::Exception held by the view carries [text] and the view's name. *)
Definition annotated (text : string) (view : ViewInfo) : Prop :=
  forall ex,
    exception view = Some ex ->
    ex_class ex = DBException ->
    contains (text +:+ table_id view) (ex_message ex).

End Vocabulary.

(** ** Vocabulary of the further properties *)

Section MoreVocabulary.

Context {Block Query : Type}.

Local Abbreviation ViewInfo := (ViewInfo Query).
Local Abbreviation Writer := (Writer Query).
Local Abbreviation Event := (Event Block Query).

Definition is_materialized_view (st : Storage Query) : bool :=
  match storage_kind st with
  | StorageMaterializedView _ _ => true
  | _ => false
  end.

(** A view record as the constructor leaves it. *)
Definition freshly_bound (view : ViewInfo) : Prop :=
  exception view = None
  /\ status (runtime_stats view) = INIT
  /\ elapsed_ms (runtime_stats view) = 0.

(** The query, the sink and the telemetry names of a view record agree with
    the kind of the dependency the catalog gives for its table_id, the sink
    being made with [insert_ctx]. *)
Definition bound_as (catalog : Catalog Query) (insert_ctx : Settings)
    (view : ViewInfo) : Prop :=
  match storage_kind (getTable catalog (table_id view)) with
  | StorageMaterializedView inner_table_id inner_query =>
      query view = Some inner_query
      /\ type (runtime_stats view) = MATERIALIZED
      /\ target_name (runtime_stats view) = inner_table_id
      /\ out view
         = InsertInto inner_table_id
             (List.filter (hasPhysical catalog inner_table_id)
                          (getSampleBlock catalog inner_query))
             insert_ctx
  | StorageLiveView inner_query =>
      query view = Some inner_query
      /\ type (runtime_stats view) = LIVE
      /\ target_name (runtime_stats view) = table_id view
      /\ out view = PushingToViews (table_id view) insert_ctx true
  | StorageOther =>
      query view = None
      /\ type (runtime_stats view) = DEFAULT
      /\ target_name (runtime_stats view) = table_id view
      /\ out view = PushingToViews (table_id view) insert_ctx false
  end.

(** What no stage touches in a view record. *)
Definition same_identity (view view' : ViewInfo) : Prop :=
  query view' = query view
  /\ table_id view' = table_id view
  /\ out view' = out view
  /\ target_name (runtime_stats view') = target_name (runtime_stats view)
  /\ type (runtime_stats view') = type (runtime_stats view)
  /\ thread_status (runtime_stats view') = thread_status (runtime_stats view).

(** The members of the writer other than the view records. *)
Definition same_members (w w' : Writer) : Prop :=
  storage w' = storage w
  /\ context w' = context w
  /\ select_context w' = select_context w
  /\ insert_context w' = insert_context w
  /\ table_locks w' = table_locks w
  /\ output w' = output w
  /\ replicated_output w' = replicated_output w.

(** A captured exception stays. *)
Definition keeps_exception (view view' : ViewInfo) : Prop :=
  view_failed view -> view_failed view'.

(** A view that comes to hold an exception keeps the status it had. *)
Definition failure_keeps_status (view view' : ViewInfo) : Prop :=
  exception view = None ->
  view_failed view' ->
  status (runtime_stats view') = status (runtime_stats view).

(** The calls a stage makes on the accounting of its ThreadStatus. *)
Definition is_accounting (ev : Event) : bool :=
  match ev with
  | SetLastRusage _ | UpdatePerformanceCounters _ => true
  | _ => false
  end.

(** A record written to the query-views log. *)
Definition is_log (ev : Event) : bool :=
  match ev with
  | LogToQueryViewsLog _ => true
  | _ => false
  end.

(** writePrefix, write (or the live view's write path), writeSuffix and
    flush called on a sink. *)
Definition is_prefix_call (ev : Event) : bool :=
  match ev with
  | OutputWritePrefix | ViewOutWritePrefix _ => true
  | _ => false
  end.

Definition is_write_call (ev : Event) : bool :=
  match ev with
  | OutputWrite _ | WriteIntoLiveView _ | ViewOutWrite _ _ => true
  | _ => false
  end.

Definition is_suffix_call (ev : Event) : bool :=
  match ev with
  | OutputWriteSuffix | ViewOutWriteSuffix _ => true
  | _ => false
  end.

Definition is_flush_call (ev : Event) : bool :=
  match ev with
  | OutputFlush | ViewOutFlush _ => true
  | _ => false
  end.

(** Every call of the list returns, when they are made one after the other
    from the history [tr]. *)
Fixpoint calls_return (env : Collaborators Block Query) (tr calls : list Event)
    : bool :=
  match calls with
  | [] => true
  | ev :: rest =>
      match answer env tr ev with
      | Some _ => false
      | None => calls_return env (tr ++ [ev]) rest
      end
  end.

(** What the block stage of a view can throw: the validation of a result
    block, a write on the view's sink, or the stream of the view's query
    over the inserted block. *)
Definition thrown_in_block_stage (env : Collaborators Block Query) (w : Writer)
    (block : Block) (view : ViewInfo) (ex : Exception) : Prop :=
  (exists b, validateArraySizes env b = Some ex)
  \/ (exists tr b, answer env tr (ViewOutWrite (table_id view) b) = Some ex)
  \/ (exists q,
        query view = Some q
        /\ snd (view_stream env (select_context w) q block
                  (min_insert_block_size_rows (context w))
                  (min_insert_block_size_bytes (context w))
                  (out view)) = Some ex).


(** A fault that ends the constructor before a ThreadStatus is destroyed:
    at the entry, with no dependency, or for the first dependency by a call
    that has left current_thread alone. *)
Definition nothing_destroyed (faults : Faults) (dependencies : list StorageID)
    : bool :=
  match entry_fault faults with
  | Some _ => true
  | None =>
      match dependencies with
      | [] => true
      | _ :: _ =>
          match binding_fault faults 0, binding_leaves faults 0 with
          | Some _, None => true
          | _, _ => false
          end
      end
  end.

(** [slot] is what a destructor has left in current_thread on the way out
    of a constructor that throws: the ~ThreadStatus of the ThreadStatus
    made for a dependency from [low] up to [high], or the call that threw
    for one of them. *)
Definition left_by_destructor (env : Collaborators Block Query)
    (catalog : Catalog Query) (faults : Faults) (low high : nat)
    (slot : option ThreadStatusPtr) : Prop :=
  exists n,
    (low <= n < high)%nat
    /\ (slot = thread_status_dtor env (new_ThreadStatus catalog n)
        \/ (binding_fault faults n <> None
            /\ binding_leaves faults n = Some slot)).

(** [s'] comes from [s] by further calls, all of them in [P]. *)
Definition extends_by (P : Event -> bool) (s s' : World Block Query) : Prop :=
  exists evs, trace s' = trace s ++ evs /\ forallb P evs = true.

(** The number of view records that hold an exception. *)
Definition count_failed (vs : list ViewInfo) : nat :=
  length (List.filter
            (fun view => match exception view with
                         | Some _ => true
                         | None => false
                         end) vs).

(** The view holds no exception and has the given status. *)
Definition succeeded_with (st : ViewStatus) (view : ViewInfo) : Prop :=
  exception view = None /\ status (runtime_stats view) = st.

End MoreVocabulary.

(** ** A concrete insert: table db.t with three materialized views

    Blocks are given by their columns, a column by the sizes of its arrays
    row by row; queries by their text. *)

Module Scenario.

Definition Block := list (list N).
Definition Query := string.

Definition ViewInfo := ViewInfo Query.
Definition Writer := Writer Query.
Definition World := World Block Query.
Definition Event := Event Block Query.

Definition sizes_mismatch : Exception :=
  {| ex_class := DBException;
     ex_message := "Elements of Nested data structure have different array sizes" |}.

(** Modelled from the spec: Nested::validateArraySizes belongs to
    DataTypes/NestedUtils, which is not under src/.  The spec (3) asks that
    all sibling array columns of a nested group have parallel sizes; here
    every column of the block is an array column of one nested group. *)
Definition validate_sizes (block : Block) : option Exception :=
  match block with
  | [] => None
  | column :: siblings =>
      if bool_decide (Forall (fun c => c = column) siblings)
      then None else Some sizes_mismatch
  end.

(** Modelled from the spec: Exception::addMessage is declared outside src/;
    the spec (4.5) has it augment the message of the captured exception with
    the given text.  The text is appended after the separator ": ". *)
Definition append_message (arg : string) (ex : Exception) : Exception :=
  {| ex_class := ex_class ex; ex_message := ex_message ex +:+ ": " +:+ arg |}.

(** Collaborators that answer by the call alone: [throws] gives the calls
    that throw, [duplicate] what lastBlockIsDuplicate reports. *)
Definition collaborators (throws : Event -> option Exception) (duplicate : bool)
    : Collaborators Block Query :=
  {| validateArraySizes := validate_sizes;
     addMessage := append_message;
     block_has_columns := fun block => negb (bool_decide (block = []));
     answer := fun _ ev => throws ev;
     view_stream := fun _ _ block _ _ _ => ([block], None);
     lastBlockIsDuplicate := fun _ => duplicate;
     elapsedMilliseconds := fun _ => 1;
     pool_worker := fun _ job => S job;
     pool_stale_load := fun _ _ => false;
     thread_status_dtor := fun _ => None |}.

Definition nothing_throws (ev : Event) : option Exception := None.

Definition boom : Exception :=
  {| ex_class := DBException; ex_message := "boom" |}.

(** std::runtime_error("boom") *)
Definition foreign_boom : Exception :=
  {| ex_class := ForeignException; ex_message := "boom" |}.

Definition mv2_write_throws (ex : Exception) (ev : Event) : option Exception :=
  match ev with
  | ViewOutWrite view _ => if String.eqb view "db.mv2" then Some ex else None
  | _ => None
  end.

Definition mv2_prefix_throws (ev : Event) : option Exception :=
  match ev with
  | ViewOutWritePrefix view => if String.eqb view "db.mv2" then Some boom else None
  | _ => None
  end.

Definition mv2_flush_throws (ev : Event) : option Exception :=
  match ev with
  | ViewOutFlush view => if String.eqb view "db.mv2" then Some boom else None
  | _ => None
  end.

Definition table (id : StorageID) : Storage Query :=
  if String.eqb id "db.mv1"
  then Build_Storage id (StorageMaterializedView "db.inner1" "SELECT * FROM db.t")
         false false
  else if String.eqb id "db.mv2"
  then Build_Storage id (StorageMaterializedView "db.inner2" "SELECT * FROM db.t")
         false false
  else if String.eqb id "db.mv3"
  then Build_Storage id (StorageMaterializedView "db.inner3" "SELECT * FROM db.t")
         false false
  else if String.eqb id "db.lv"
  then Build_Storage id (StorageLiveView "SELECT count() FROM db.t") false false
  else Build_Storage id StorageOther true true.

Definition catalog : Catalog Query :=
  {| getDependencies := fun id =>
       if String.eqb id "db.t" then ["db.mv1"; "db.mv2"; "db.mv3"]
       else if String.eqb id "db.lv" then ["db.mv1"]
       else [];
     getTable := table;
     getSampleBlock := fun _ => ["n.a"; "n.b"];
     hasPhysical := fun _ _ => true;
     new_ThreadStatus := fun n => (100 + n)%nat;
     thread_status_ctor := fun ts => Some ts |}.

Definition settings : Settings :=
  {| deduplicate_blocks_in_dependent_materialized_views := false;
     insert_deduplicate := true;
     min_insert_block_size_rows := 1048576;
     min_insert_block_size_bytes := 268435456;
     min_insert_block_size_rows_for_materialized_views := 0;
     min_insert_block_size_bytes_for_materialized_views := 0;
     parallel_view_processing := false;
     max_threads := 8;
     log_queries := true;
     log_query_views_enabled := true;
     log_queries_min_query_duration_ms := 0 |}.

(** The calling thread is thread 0 and is attached to ThreadStatus 7. *)
Definition start : World :=
  {| current_thread := {[ 0%nat := 7%nat ]}; trace := [] |}.

(** The writer of an insert into db.t. *)
Definition writer : Writer :=
  fst (construct catalog (table "db.t") settings false 0%nat start).


(** Two sibling columns with parallel sizes, and two without. *)
Definition good_block : Block := [[1; 2]; [1; 2]].
Definition bad_block : Block := [[1; 2]; [1; 3]].

(** The view records the constructor makes for db.t. *)
Definition materialized_view (n : nat) (id inner : string) : ViewInfo :=
  {| query := Some "SELECT * FROM db.t";
     table_id := id;
     out := InsertInto inner ["n.a"; "n.b"] (set_insert_deduplicate false settings);
     exception := None;
     runtime_stats :=
       {| target_name := inner; type := MATERIALIZED;
          thread_status := (100 + n)%nat; elapsed_ms := 0; status := INIT |} |}.

Definition mv1 : ViewInfo := materialized_view 0 "db.mv1" "db.inner1".
Definition mv2 : ViewInfo := materialized_view 1 "db.mv2" "db.inner2".
Definition mv3 : ViewInfo := materialized_view 2 "db.mv3" "db.inner3".

(** Nothing throws. *)
Definition quiet : Collaborators Block Query := collaborators nothing_throws false.

(** Nothing throws, and the replicated sink reports a duplicate. *)
Definition duplicate : Collaborators Block Query := collaborators nothing_throws true.

(** The sink of db.mv2 throws a DB::Exception on write. *)
Definition mv2_fails : Collaborators Block Query :=
  collaborators (mv2_write_throws boom) false.

(** The sink of db.mv2 throws a std::runtime_error on write. *)
Definition mv2_fails_foreign : Collaborators Block Query :=
  collaborators (mv2_write_throws foreign_boom) false.

(** The sink of db.mv2 throws on writePrefix. *)
Definition mv2_prefix_fails : Collaborators Block Query :=
  collaborators mv2_prefix_throws false.

(** The sink of db.mv2 throws on flush. *)
Definition mv2_flush_fails : Collaborators Block Query :=
  collaborators mv2_flush_throws false.

(** write(good_block) while the sink of db.mv2 fails: after the write to
    the destination, after the stage of db.mv1, after the stage of db.mv2. *)
Definition after_destination : World :=
  snd (write_to_destination mv2_fails writer good_block start).
Definition mv1_written : ViewInfo :=
  fst (process mv2_fails writer 0%nat good_block mv1 after_destination).
Definition after_mv1 : World :=
  snd (process mv2_fails writer 0%nat good_block mv1 after_destination).
Definition mv2_failed : ViewInfo :=
  fst (process mv2_fails writer 0%nat good_block mv2 after_mv1).
Definition after_mv2 : World :=
  snd (process mv2_fails writer 0%nat good_block mv2 after_mv1).

(** The writer and the world that write leaves behind. *)
Definition writer_after_write : Writer :=
  snd (fst (write mv2_fails writer 0%nat good_block start)).
Definition after_write : World :=
  snd (write mv2_fails writer 0%nat good_block start).

(** writePrefix while the sink of db.mv2 fails. *)
Definition after_output_prefix : World := emit OutputWritePrefix start.
Definition mv1_prefixed : ViewInfo :=
  fst (process_prefix mv2_prefix_fails 0%nat mv1 after_output_prefix).
Definition after_mv1_prefix : World :=
  snd (process_prefix mv2_prefix_fails 0%nat mv1 after_output_prefix).
Definition mv2_prefix_failed : ViewInfo :=
  fst (process_prefix mv2_prefix_fails 0%nat mv2 after_mv1_prefix).
Definition after_mv2_prefix : World :=
  snd (process_prefix mv2_prefix_fails 0%nat mv2 after_mv1_prefix).

(** writeSuffix after the failed write. *)
Definition after_output_suffix : World := emit OutputWriteSuffix after_write.
Definition mv1_suffixed : ViewInfo :=
  fst (process_suffix mv2_fails 0%nat mv1_written after_output_suffix).
Definition after_mv1_suffix : World :=
  snd (process_suffix mv2_fails 0%nat mv1_written after_output_suffix).

End Scenario.

(** ** Further concrete inserts *)

Module Cases.

Definition Block := Scenario.Block.
Definition Query := Scenario.Query.

(** db.src has a plain dependent, a live view and a materialized view. *)
Definition mixed_catalog : Catalog Query :=
  {| getDependencies := fun id =>
       if String.eqb id "db.src" then ["db.plain"; "db.lv"; "db.mv1"] else [];
     getTable := Scenario.table;
     getSampleBlock := fun _ => ["n.a"; "n.b"; "n.alias"];
     hasPhysical := fun _ name => negb (String.eqb name "n.alias");
     new_ThreadStatus := fun n => (200 + n)%nat;
     thread_status_ctor := fun ts => Some ts |}.

Definition mixed_writer : Scenario.Writer :=
  fst (construct mixed_catalog (Scenario.table "db.src") Scenario.settings false
         0%nat Scenario.start).

(** The record of the plain dependent db.plain: it has no query. *)
Definition plain_view : Scenario.ViewInfo :=
  {| query := None;
     table_id := "db.plain";
     out := PushingToViews "db.plain"
              (set_insert_deduplicate false Scenario.settings) false;
     exception := None;
     runtime_stats :=
       {| target_name := "db.plain"; type := DEFAULT;
          thread_status := 200%nat; elapsed_ms := 0; status := INIT |} |}.

(** A table with 256 materialized views, db.v0 to db.v255, written with
    parallel_view_processing on and 256 threads. *)
Definition crowd_catalog : Catalog Query :=
  {| getDependencies := fun id =>
       if String.eqb id "db.t"
       then map (fun n => "db.v" +:+ pretty n) (seq 0 256) else [];
     getTable := fun id =>
       if String.eqb id "db.t" then Scenario.table id
       else Build_Storage id
              (StorageMaterializedView ("inner." +:+ id) "SELECT * FROM db.t")
              false false;
     getSampleBlock := fun _ => ["n.a"; "n.b"];
     hasPhysical := fun _ _ => true;
     new_ThreadStatus := fun n => (1000 + n)%nat;
     thread_status_ctor := fun ts => Some ts |}.

Definition crowd_settings : Settings :=
  {| deduplicate_blocks_in_dependent_materialized_views := false;
     insert_deduplicate := true;
     min_insert_block_size_rows := 1048576;
     min_insert_block_size_bytes := 268435456;
     min_insert_block_size_rows_for_materialized_views := 0;
     min_insert_block_size_bytes_for_materialized_views := 0;
     parallel_view_processing := true;
     max_threads := 256;
     log_queries := false;
     log_query_views_enabled := false;
     log_queries_min_query_duration_ms := 0 |}.

Definition crowd_writer : Scenario.Writer :=
  fst (construct crowd_catalog (Scenario.table "db.t") crowd_settings false
         0%nat Scenario.start).

Definition every_view_write_throws (ev : Scenario.Event) : option Exception :=
  match ev with
  | ViewOutWrite _ _ => Some Scenario.boom
  | _ => None
  end.

(** Every view's sink throws on write, and every job of a pool has loaded
    exception_count before any other job has incremented it. *)
Definition racing : Collaborators Block Query :=
  {| validateArraySizes := Scenario.validate_sizes;
     addMessage := Scenario.append_message;
     block_has_columns := fun block => negb (bool_decide (block = []));
     answer := fun _ ev => every_view_write_throws ev;
     view_stream := fun _ _ block _ _ _ => ([block], None);
     lastBlockIsDuplicate := fun _ => false;
     elapsedMilliseconds := fun _ => 1;
     pool_worker := fun _ job => S job;
     pool_stale_load := fun _ _ => true;
     thread_status_dtor := fun _ => None |}.

(** Nothing throws and every block passes the validation. *)
Definition lenient : Collaborators Block Query :=
  {| validateArraySizes := fun _ => None;
     addMessage := Scenario.append_message;
     block_has_columns := fun block => negb (bool_decide (block = []));
     answer := fun _ _ => None;
     view_stream := fun _ _ block _ _ _ => ([block], None);
     lastBlockIsDuplicate := fun _ => false;
     elapsedMilliseconds := fun _ => 1;
     pool_worker := fun _ job => S job;
     pool_stale_load := fun _ _ => false;
     thread_status_dtor := fun _ => None |}.

Definition direct_sink_throws (ev : Scenario.Event) : option Exception :=
  match ev with
  | OutputWritePrefix | OutputWrite _ | OutputWriteSuffix | OutputFlush =>
      Some Scenario.boom
  | _ => None
  end.

(** Every call on the direct sink throws. *)
Definition direct_fails : Collaborators Block Query :=
  Scenario.collaborators direct_sink_throws false.

(** The writer of an insert into a table without dependents. *)
Definition lonely_writer : Scenario.Writer :=
  fst (construct Scenario.catalog (Scenario.table "db.alone") Scenario.settings
         false 0%nat Scenario.start).

(** The constructor's collaborators, of which storage->write throws. *)
Definition destination_fails : Faults :=
  {| entry_fault := None;
     binding_fault := fun _ => None;
     binding_leaves := fun _ => None;
     attach_fault := fun _ => None;
     destination_fault := Some Scenario.boom |}.

End Cases.

(** ** Properties *)

Section Properties.

Context {Block Query : Type}.
Variable env : Collaborators Block Query.

Local Abbreviation ViewInfo := (ViewInfo Query).
Local Abbreviation Writer := (Writer Query).
Local Abbreviation World := (World Block Query).
Local Abbreviation Event := (Event Block Query).

(** *** The thread-local slot *)

Lemma assign_slot_twice tid p q (slots : gmap ThreadId ThreadStatusPtr) :
  assign_slot tid p (assign_slot tid q slots) = assign_slot tid p slots.
Proof.
  apply map_eq; intros t.
  destruct p, q; simpl;
    destruct (decide (tid = t)) as [->|Hne];
    rewrite ?lookup_insert_eq, ?lookup_delete_eq;
    rewrite ?lookup_insert_ne, ?lookup_delete_ne by done;
    rewrite ?lookup_insert_ne, ?lookup_delete_ne by done; done.
Qed.

Lemma assign_slot_same tid (slots : gmap ThreadId ThreadStatusPtr) :
  assign_slot tid (slots !! tid) slots = slots.
Proof.
  destruct (slots !! tid) eqn:E; simpl.
  - by apply insert_id.
  - by apply delete_id.
Qed.

(** Saving the slot, overwriting it and writing the saved value back leaves
    every thread's slot as it was. *)
Lemma assign_slot_restore tid p (slots : gmap ThreadId ThreadStatusPtr) :
  assign_slot tid (slots !! tid) (assign_slot tid p slots) = slots.
Proof. rewrite assign_slot_twice. apply assign_slot_same. Qed.

Lemma current_thread_emit (ev : Event) (s : World) :
  current_thread (emit ev s) = current_thread s.
Proof. reflexivity. Qed.

Lemma current_thread_invoke (ev : Event) (s : World) :
  current_thread (snd (invoke env ev s)) = current_thread s.
Proof. reflexivity. Qed.

Lemma current_thread_write_blocks (view : ViewInfo) blocks (s : World) :
  current_thread (snd (write_blocks env view blocks s)) = current_thread s.
Proof.
  revert s; induction blocks as [|b rest IH]; intros s; simpl; [done|].
  destruct (block_has_columns env b); [|done].
  destruct (validateArraySizes env b); [done|].
  destruct (answer env (trace s) _); [done|].
  by rewrite IH.
Qed.

Lemma current_thread_process_body (w : Writer) block (view : ViewInfo) (s : World) :
  current_thread (snd (process_body env w block view s)) = current_thread s.
Proof.
  unfold process_body.
  destruct (match query view with Some _ => _ | None => _ end) as [blocks failure].
  pose proof (current_thread_write_blocks view blocks s) as H.
  destruct (write_blocks env view blocks s) as [[ex|] s']; exact H.
Qed.

(** A stage runner restores the slot of the thread that runs it, whatever
    its body answers, as long as the body leaves the slots alone. *)
Lemma current_thread_run_stage tid text done body (view : ViewInfo) (s : World) :
  (forall s0, current_thread (snd (body s0)) = current_thread s0) ->
  current_thread (snd (run_stage env tid text done body view s)) = current_thread s.
Proof.
  intros Hbody. unfold run_stage.
  specialize (Hbody (emit (SetLastRusage (thread_status (runtime_stats view)))
                       (set_current_thread tid
                          (Some (thread_status (runtime_stats view))) s))).
  destruct (body _) as [thrown s2]. simpl in *.
  rewrite Hbody. apply (assign_slot_restore tid (Some _)).
Qed.

Lemma current_thread_process (w : Writer) tid block (view : ViewInfo) (s : World) :
  current_thread (snd (process env w tid block view s)) = current_thread s.
Proof.
  apply current_thread_run_stage. intros s0. apply current_thread_process_body.
Qed.

Lemma current_thread_process_prefix tid (view : ViewInfo) (s : World) :
  current_thread (snd (process_prefix env tid view s)) = current_thread s.
Proof. apply current_thread_run_stage. intros s0. apply current_thread_invoke. Qed.

Lemma current_thread_process_suffix tid (view : ViewInfo) (s : World) :
  current_thread (snd (process_suffix env tid view s)) = current_thread s.
Proof. apply current_thread_run_stage. intros s0. apply current_thread_invoke. Qed.

Lemma current_thread_log_query_views_loop d (vs : list ViewInfo) (s : World) :
  current_thread (log_query_views_loop env d vs s) = current_thread s.
Proof.
  revert s; induction vs as [|view rest IH]; intros s; simpl; [done|].
  destruct (_ && _); by rewrite IH.
Qed.

Lemma current_thread_log_query_views (w : Writer) (s : World) :
  current_thread (log_query_views env w s) = current_thread s.
Proof.
  unfold log_query_views. destruct (views w); [done|].
  destruct (_ || _); [done|]. apply current_thread_log_query_views_loop.
Qed.

Lemma current_thread_check_exceptions_loop (w : Writer) vs (s : World) :
  current_thread (snd (check_exceptions_loop env w vs s)) = current_thread s.
Proof.
  induction vs as [|view rest IH]; simpl; [done|].
  destruct (exception view); [apply current_thread_log_query_views | exact IH].
Qed.

Lemma current_thread_run_sequentially
    (stage : ViewInfo -> World -> ViewInfo * World) vs (s : World) :
  (forall view s0, current_thread (snd (stage view s0)) = current_thread s0) ->
  current_thread (snd (fst (run_sequentially stage vs s))) = current_thread s.
Proof.
  intros Hstage. revert s; induction vs as [|view rest IH]; intros s; simpl; [done|].
  specialize (Hstage view s) as H1.
  destruct (stage view s) as [view' s']. simpl in H1.
  destruct (exception view'); simpl; [done|].
  specialize (IH s').
  destruct (run_sequentially stage rest s') as [[rest' s''] happened].
  simpl in *. congruence.
Qed.

Lemma current_thread_run_in_pool
    (stage : ThreadId -> ViewInfo -> World -> ViewInfo * World) job vs count
    (s : World) :
  (forall t view s0, current_thread (snd (stage t view s0)) = current_thread s0) ->
  current_thread (snd (fst (run_in_pool env stage job vs count s)))
  = current_thread s.
Proof.
  intros Hstage. revert job count s.
  induction vs as [|view rest IH]; intros job count s; simpl; [done|].
  destruct (negb _).
  - specialize (IH (S job) count s).
    destruct (run_in_pool env stage (S job) rest count s) as [[rest' s'] c].
    exact IH.
  - specialize (Hstage (pool_worker env (trace s) job) view s) as H1.
    destruct (stage _ view s) as [view' s1]. simpl in H1.
    match goal with
    | |- context [run_in_pool env stage (S job) rest ?c s1] =>
        specialize (IH (S job) c s1);
        destruct (run_in_pool env stage (S job) rest c s1) as [[rest' s'] c']
    end.
    simpl in *. congruence.
Qed.

Lemma current_thread_fan_out (w : Writer) tid
    (stage : ThreadId -> ViewInfo -> World -> ViewInfo * World) (s : World) :
  (forall t view s0, current_thread (snd (stage t view s0)) = current_thread s0) ->
  current_thread (snd (fst (fan_out env w tid stage s))) = current_thread s.
Proof.
  intros Hstage. unfold fan_out. destruct (1 <? pool_size w).
  - pose proof (current_thread_run_in_pool stage 0 (views w) 0 s Hstage) as H.
    destruct (run_in_pool env stage 0 (views w) 0 s) as [[views' s'] c].
    exact H.
  - apply current_thread_run_sequentially. intros view s0. apply Hstage.
Qed.

Lemma current_thread_write_to_destination (w : Writer) block (s : World) :
  current_thread (snd (write_to_destination env w block s)) = current_thread s.
Proof.
  unfold write_to_destination.
  destruct (is_live_view (storage w)); [done|]. by destruct (output w).
Qed.

Lemma current_thread_push_to_views (w : Writer) tid block (s : World) :
  current_thread (snd (push_to_views env w tid block s)) = current_thread s.
Proof.
  unfold push_to_views. destruct (views w) eqn:Hviews; [done|].
  destruct (_ && _); [done|].
  pose proof (current_thread_fan_out w tid (fun t => process env w t block) s
                (fun t => current_thread_process w t block)) as H.
  destruct (fan_out env w tid _ s) as [[views' s'] happened]. simpl in H.
  destruct happened; [|exact H].
  unfold check_exceptions_in_views.
  pose proof (current_thread_check_exceptions_loop (set_views views' w)
                (views (set_views views' w)) s') as H2.
  destruct (check_exceptions_loop env _ _ s') as [o s'']. simpl in *. congruence.
Qed.

Lemma current_thread_write (w : Writer) tid block (s : World) :
  current_thread (snd (write env w tid block s)) = current_thread s.
Proof.
  unfold write. destruct (validateArraySizes env block); [done|].
  pose proof (current_thread_write_to_destination w block s) as H.
  destruct (write_to_destination env w block s) as [[| |] s1]; simpl in *;
    try exact H.
  rewrite current_thread_push_to_views. exact H.
Qed.

Lemma current_thread_writePrefix (w : Writer) tid handled (s : World) :
  current_thread (snd (writePrefix env w tid handled s)) = current_thread s.
Proof.
  unfold writePrefix.
  assert (Hs1 : current_thread
                  (snd (if output w then invoke env OutputWritePrefix s
                        else (None, s))) = current_thread s)
    by (by destruct (output w)).
  destruct (if output w then _ else _) as [[ex|] s1]; simpl in Hs1; [done|].
  pose proof (current_thread_run_sequentially (process_prefix env tid) (views w) s1
                (current_thread_process_prefix tid)) as H.
  destruct (run_sequentially _ (views w) s1) as [[views' s2] failed]. simpl in H.
  destruct failed; simpl; [rewrite current_thread_log_query_views|]; congruence.
Qed.

Lemma current_thread_writeSuffix (w : Writer) tid (s : World) :
  current_thread (snd (writeSuffix env w tid s)) = current_thread s.
Proof.
  unfold writeSuffix.
  assert (Hs1 : current_thread
                  (snd (if output w then invoke env OutputWriteSuffix s
                        else (None, s))) = current_thread s)
    by (by destruct (output w)).
  destruct (if output w then _ else _) as [[ex|] s1]; simpl in Hs1; [done|].
  destruct (views w) eqn:Hviews; [done|].
  pose proof (current_thread_fan_out w tid (process_suffix env) s1
                (current_thread_process_suffix)) as H.
  destruct (fan_out env w tid _ s1) as [[views' s2] happened]. simpl in H.
  assert (Hs3 : current_thread
                  (snd (if happened
                        then check_exceptions_in_views env (set_views views' w) s2
                        else (Returned, s2))) = current_thread s2).
  { destruct happened; [|done]. apply current_thread_check_exceptions_loop. }
  destruct (if happened then _ else _) as [[| |] s3]; simpl in *;
    rewrite ?current_thread_log_query_views; congruence.
Qed.

Lemma current_thread_views_clear (vs : list ViewInfo) tid (s : World) :
  exists p, current_thread (views_clear env vs tid s)
            = assign_slot tid p (current_thread s).
Proof.
  unfold views_clear. revert s; induction vs as [|view rest IH]; intros s; simpl.
  - exists (current_thread s !! tid). by rewrite assign_slot_same.
  - destruct (IH (set_current_thread tid
                    (thread_status_dtor env (thread_status (runtime_stats view))) s))
      as [p Hp].
    exists p. rewrite Hp. simpl. apply assign_slot_twice.
Qed.

Lemma current_thread_destroy (w : Writer) tid (s : World) :
  current_thread (snd (destroy env w tid s)) = current_thread s.
Proof.
  unfold destroy; simpl.
  destruct (current_thread_views_clear (views w) tid s) as [p ->].
  apply assign_slot_restore.
Qed.

(** C1 (accounting restoration).  Whatever prefix, write, suffix or the
    destructor do and however they end (return, throw or terminate), the
    thread-local slot [current_thread] of the calling thread, and of every
    other thread, holds after the call what it held before it. *)
Theorem accounting_restoration (w : Writer) (tid : ThreadId)
    (handled : option Exception) (block : Block) (s : World) :
  current_thread (snd (writePrefix env w tid handled s)) = current_thread s
  /\ current_thread (snd (write env w tid block s)) = current_thread s
  /\ current_thread (snd (writeSuffix env w tid s)) = current_thread s
  /\ current_thread (snd (destroy env w tid s)) = current_thread s.
Proof.
  repeat split.
  - apply current_thread_writePrefix.
  - apply current_thread_write.
  - apply current_thread_writeSuffix.
  - apply current_thread_destroy.
Qed.

(** *** write: the checks before the fan-out *)

Lemma write_to_destination_trace (w : Writer) block (s : World) :
  exists evs,
    trace (snd (write_to_destination env w block s)) = trace s ++ evs
    /\ Forall (fun ev => is_view_call ev = false) evs.
Proof.
  unfold write_to_destination.
  destruct (is_live_view (storage w)); [|destruct (output w)]; simpl.
  - exists [WriteIntoLiveView block]. split; [done|]. by repeat constructor.
  - exists [OutputWrite block]. split; [done|]. by repeat constructor.
  - exists []. split; [by rewrite app_nil_r | constructor].
Qed.

(** C8 (shape validation).  When Nested::validateArraySizes rejects the
    batch (it throws when the sizes of the arrays of a nested structure do
    not match), write throws that exception before anything else: no call
    reaches the direct sink or any view's sink, and the writer is
    unchanged. *)
Theorem write_rejects_mismatched_arrays (w : Writer) (tid : ThreadId)
    (block : Block) (s : World) (ex : Exception) :
  validateArraySizes env block = Some ex ->
  write env w tid block s = (Threw ex, w, s).
Proof. intros H. unfold write. by rewrite H. Qed.

(** C6 (deduplication gate).  With
    deduplicate_blocks_in_dependent_materialized_views off and a replicated
    root sink that reports, after the write to the destination, that the last
    block was a duplicate, write leaves the view records as they were and
    makes no call on any view's downstream sink. *)
Theorem duplicate_block_skips_views (w : Writer) (tid : ThreadId)
    (block : Block) (s : World) :
  deduplicate_blocks_in_dependent_materialized_views (context w) = false ->
  replicated_output w = true ->
  lastBlockIsDuplicate env
    (trace (snd (write_to_destination env w block s))) = true ->
  exists o s' evs,
    write env w tid block s = (o, w, s')
    /\ trace s' = trace s ++ evs
    /\ Forall (fun ev => is_view_call ev = false) evs.
Proof.
  intros Hdedup Hrepl Hdup. unfold write.
  destruct (validateArraySizes env block) as [ex|].
  { exists (Threw ex), s, []. by rewrite app_nil_r. }
  destruct (write_to_destination_trace w block s) as (evs & Htr & Hevs).
  destruct (write_to_destination env w block s) as [o s1]. simpl in *.
  assert (Hgate : push_to_views env w tid block s1 = (Returned, w, s1)).
  { unfold push_to_views. destruct (views w); [done|].
    by rewrite Hdedup, Hrepl, Hdup. }
  destruct o; [rewrite Hgate| |]; eauto 10.
Qed.

(** *** flush *)

Lemma flush_views_throws (vs : list ViewInfo) (s : World) made ev skipped ex :
  map (fun view => ViewOutFlush (table_id view)) vs = made ++ ev :: skipped ->
  calls_return env (trace s) made = true ->
  answer env (trace s ++ made) ev = Some ex ->
  flush_views env vs s
  = (Threw ex, {| current_thread := current_thread s;
                  trace := trace s ++ made ++ [ev] |}).
Proof.
  revert s made. induction vs as [|view rest IH]; intros s made Hcalls Hret Hans.
  { by destruct made. }
  simpl in Hcalls. destruct made as [|call made]; simpl in Hcalls.
  - injection Hcalls as <- _. rewrite app_nil_r in Hans.
    simpl. by rewrite Hans.
  - injection Hcalls as <- Hcalls. simpl in Hret.
    destruct (answer env (trace s) (ViewOutFlush (table_id view))) eqn:Ha;
      [done|].
    simpl. rewrite Ha.
    rewrite (IH (emit (ViewOutFlush (table_id view)) s) made Hcalls Hret).
    + simpl. by rewrite <- app_assoc.
    + simpl. by rewrite <- app_assoc.
Qed.

Lemma flush_views_returns (vs : list ViewInfo) (s : World) :
  calls_return env (trace s)
    (map (fun view => ViewOutFlush (table_id view)) vs) = true ->
  flush_views env vs s
  = (Returned,
     {| current_thread := current_thread s;
        trace := trace s ++ map (fun view => ViewOutFlush (table_id view)) vs |}).
Proof.
  revert s. induction vs as [|view rest IH]; intros s Hret; simpl.
  { rewrite app_nil_r. by destruct s. }
  simpl in Hret.
  destruct (answer env (trace s) (ViewOutFlush (table_id view))) eqn:Ha; [done|].
  rewrite (IH (emit (ViewOutFlush (table_id view)) s) Hret).
  simpl. by rewrite <- app_assoc.
Qed.

(** C4, as the code has it.  flush calls flush on the direct sink and then
    on the views' sinks in view order.  The first call that throws ends
    flush at once with that exception: the calls made are the calls up to
    and including the failing one, and the sinks after it are not flushed.
    When no call throws, every sink is flushed and flush returns. *)
Theorem flush_stops_at_first_error (w : Writer) (s : World) :
  (forall made ev skipped ex,
      flush_calls w = made ++ ev :: skipped ->
      calls_return env (trace s) made = true ->
      answer env (trace s ++ made) ev = Some ex ->
      flush env w s
      = (Threw ex, {| current_thread := current_thread s;
                      trace := trace s ++ made ++ [ev] |}))
  /\ (calls_return env (trace s) (flush_calls w) = true ->
      flush env w s
      = (Returned, {| current_thread := current_thread s;
                      trace := trace s ++ flush_calls w |})).
Proof.
  unfold flush, flush_calls. destruct (output w); simpl.
  - split.
    + intros made ev skipped ex Hcalls Hret Hans.
      destruct made as [|call made]; simpl in Hcalls.
      * injection Hcalls as <- _. rewrite app_nil_r in Hans. by rewrite Hans.
      * injection Hcalls as <- Hcalls. simpl in Hret.
        destruct (answer env (trace s) OutputFlush) eqn:Ha; [done|].
        rewrite (flush_views_throws (views w) (emit OutputFlush s)
                   made ev skipped ex Hcalls Hret).
        -- simpl. by rewrite <- app_assoc.
        -- simpl. by rewrite <- app_assoc.
    + intros Hret.
      destruct (answer env (trace s) OutputFlush) eqn:Ha; [done|].
      rewrite (flush_views_returns (views w) (emit OutputFlush s) Hret).
      simpl. by rewrite <- app_assoc.
  - split.
    + intros made ev skipped ex. apply flush_views_throws.
    + apply flush_views_returns.
Qed.

(** *** What a stage runner does to a view and to the trace *)

Lemma run_stage_trace tid text st body (view : ViewInfo) (s : World) :
  let ts := thread_status (runtime_stats view) in
  let s1 := emit (SetLastRusage ts) (set_current_thread tid (Some ts) s) in
  trace (snd (run_stage env tid text st body view s))
  = trace (snd (body s1)) ++ [UpdatePerformanceCounters ts].
Proof. simpl. unfold run_stage. by destruct (body _) as [thrown s2]. Qed.

Lemma run_stage_table_id tid text st body (view : ViewInfo) (s : World) :
  table_id (fst (run_stage env tid text st body view s)) = table_id view.
Proof.
  unfold run_stage. destruct (body _) as [[ex|] s2]; simpl; [|done].
  unfold capture. by destruct (ex_class ex).
Qed.

(** A captured exception is never cleared. *)
Lemma run_stage_keeps_exception tid text st body (view : ViewInfo) (s : World) :
  view_failed view ->
  view_failed (fst (run_stage env tid text st body view s)).
Proof.
  unfold view_failed, run_stage. intros Hv.
  destruct (body _) as [[ex|] s2]; simpl; [|done].
  unfold capture. by destruct (ex_class ex).
Qed.

(** What the view holds after a stage is decided by what the body threw. *)
Lemma run_stage_exception tid text st body (view : ViewInfo) (s : World) :
  let ts := thread_status (runtime_stats view) in
  let s1 := emit (SetLastRusage ts) (set_current_thread tid (Some ts) s) in
  exception (fst (run_stage env tid text st body view s))
  = match fst (body s1) with
    | None => exception view
    | Some ex =>
        match ex_class ex with
        | DBException => Some (addMessage env (text +:+ table_id view) ex)
        | ForeignException => Some ex
        end
    end.
Proof.
  simpl. unfold run_stage. destruct (body _) as [[ex|] s2]; simpl; [|done].
  unfold capture. by destruct (ex_class ex).
Qed.

(** A stage runner does not look at the exception the view already holds:
    the same calls are made either way. *)
Lemma run_stage_ignores_exception tid text st body e (view : ViewInfo) (s : World) :
  snd (run_stage env tid text st body (set_exception e view) s)
  = snd (run_stage env tid text st body view s).
Proof. unfold run_stage. simpl. by destruct (body _) as [thrown s2]. Qed.

Lemma process_prefix_trace tid (view : ViewInfo) (s : World) :
  trace (snd (process_prefix env tid view s))
  = trace s ++ [SetLastRusage (thread_status (runtime_stats view));
                ViewOutWritePrefix (table_id view);
                UpdatePerformanceCounters (thread_status (runtime_stats view))].
Proof.
  unfold process_prefix. rewrite run_stage_trace. simpl.
  by rewrite <- !app_assoc.
Qed.

Lemma process_suffix_trace tid (view : ViewInfo) (s : World) :
  trace (snd (process_suffix env tid view s))
  = trace s ++ [SetLastRusage (thread_status (runtime_stats view));
                ViewOutWriteSuffix (table_id view);
                UpdatePerformanceCounters (thread_status (runtime_stats view))].
Proof.
  unfold process_suffix. rewrite run_stage_trace. simpl.
  by rewrite <- !app_assoc.
Qed.

(** *** The sequential loop *)

Lemma run_sequentially_clean
    (stage : ViewInfo -> World -> ViewInfo * World) vs (s : World) vs' s' :
  run_sequentially stage vs s = (vs', s', false) ->
  Forall (fun view => exception view = None) vs'.
Proof.
  revert s vs' s'. induction vs as [|view rest IH]; intros s vs' s'; simpl.
  - intros [= <- <-]. constructor.
  - destruct (stage view s) as [view' s1].
    destruct (exception view') eqn:Hex; [done|].
    destruct (run_sequentially stage rest s1) as [[rest' s2] f] eqn:Hrest.
    intros [= <- <- ->]. constructor; [done|]. by eapply IH.
Qed.

(** The loop breaks at the first view that holds an exception once its
    stage has run; the views behind it are left as they are. *)
Lemma run_sequentially_break
    (stage : ViewInfo -> World -> ViewInfo * World)
    pre view post (s : World) pre' s1 view' s2 :
  run_sequentially stage pre s = (pre', s1, false) ->
  stage view s1 = (view', s2) ->
  view_failed view' ->
  run_sequentially stage (pre ++ view :: post) s = (pre' ++ view' :: post, s2, true).
Proof.
  intros Hpre Hview Hfailed. revert s pre' Hpre.
  induction pre as [|v pre IH]; intros s pre'; simpl.
  - intros [= <- <-]. rewrite Hview.
    unfold view_failed in Hfailed. by destruct (exception view').
  - destruct (stage v s) as [v' s0].
    destruct (exception v'); [done|].
    destruct (run_sequentially stage pre s0) as [[pre0 s3] f] eqn:Hrun.
    intros [= <- <- ->]. by rewrite (IH s0 pre0 Hrun).
Qed.

(** When the loop reports an exception, that is how it ended. *)
Lemma run_sequentially_broke
    (stage : ViewInfo -> World -> ViewInfo * World) vs (s : World) vs' s' :
  run_sequentially stage vs s = (vs', s', true) ->
  exists pre view post pre' s1 view',
    vs = pre ++ view :: post
    /\ run_sequentially stage pre s = (pre', s1, false)
    /\ stage view s1 = (view', s')
    /\ view_failed view'
    /\ vs' = pre' ++ view' :: post.
Proof.
  revert s vs' s'. induction vs as [|v rest IH]; intros s vs' s'; simpl; [done|].
  destruct (stage v s) as [v' s0] eqn:Hv.
  destruct (exception v') eqn:Hex.
  - intros [= <- <-]. exists [], v, rest, [], s, v'. simpl.
    rewrite Hv. unfold view_failed. rewrite Hex. done.
  - destruct (run_sequentially stage rest s0) as [[rest' s2] f] eqn:Hrun.
    intros [= <- <- ->].
    destruct (IH _ _ _ Hrun) as (pre & view & post & pre' & s1 & view' &
                                 -> & Hpre & Hview & Hfailed & ->).
    exists (v :: pre), view, post, (v' :: pre'), s1, view'. simpl.
    rewrite Hv, Hex, Hpre. done.
Qed.

Lemma pool_size_sequential (w : Writer) :
  parallel_view_processing (context w) = false -> (1 <? pool_size w) = false.
Proof.
  intros H. unfold pool_size. rewrite H. apply N.ltb_ge. apply N.le_min_r.
Qed.

Lemma fan_out_sequential (w : Writer) tid
    (stage : ThreadId -> ViewInfo -> World -> ViewInfo * World) (s : World) :
  parallel_view_processing (context w) = false ->
  fan_out env w tid stage s = run_sequentially (stage tid) (views w) s.
Proof. intros H. unfold fan_out. by rewrite pool_size_sequential. Qed.

(** *** The first view that holds an exception *)

Lemma first_failed_view (vs : list ViewInfo) :
  Exists view_failed vs ->
  exists pre view post ex,
    vs = pre ++ view :: post
    /\ Forall (fun v => exception v = None) pre
    /\ exception view = Some ex.
Proof.
  induction vs as [|v rest IH]; intros H; [by inversion H|].
  destruct (exception v) as [ex|] eqn:Hex.
  - exists [], v, rest, ex. repeat split; [constructor | done].
  - inversion H as [? ? Hv | ? ? Hrest]; subst.
    + unfold view_failed in Hv. congruence.
    + destruct (IH Hrest) as (pre & view & post & ex & -> & Hpre & Hview).
      exists (v :: pre), view, post, ex. repeat split; [|done].
      by constructor.
Qed.

Lemma run_sequentially_failed
    (stage : ViewInfo -> World -> ViewInfo * World) vs (s : World) vs' s' :
  run_sequentially stage vs s = (vs', s', true) -> Exists view_failed vs'.
Proof.
  intros H. apply run_sequentially_broke in H
    as (pre & view & post & pre' & s1 & view' & _ & _ & _ & Hfailed & ->).
  apply Exists_app. right. by constructor.
Qed.

Lemma run_in_pool_failed
    (stage : ThreadId -> ViewInfo -> World -> ViewInfo * World)
    job vs count (s : World) vs' s' count' :
  run_in_pool env stage job vs count s = (vs', s', count') ->
  count' <> count -> Exists view_failed vs'.
Proof.
  revert job count s vs' s' count'.
  induction vs as [|view rest IH]; intros job count s vs' s' count'; simpl.
  - intros [= <- <- <-]. done.
  - destruct (negb _).
    + destruct (run_in_pool env stage (S job) rest count s)
        as [[rest' s1] c] eqn:Hrest.
      intros [= <- <- <-] Hc. apply Exists_cons_tl. by eapply IH.
    + destruct (stage _ view s) as [view' s1].
      destruct (exception view') as [ex|] eqn:Hex.
      * destruct (run_in_pool env stage (S job) rest _ s1) as [[rest' s2] c].
        intros [= <- <- <-] _. apply Exists_cons_hd.
        unfold view_failed. by rewrite Hex.
      * destruct (run_in_pool env stage (S job) rest count s1)
          as [[rest' s2] c] eqn:Hrest.
        intros [= <- <- <-] Hc. apply Exists_cons_tl. by eapply IH.
Qed.

(** When the fan-out sets exception_happened, some view holds an
    exception. *)
Lemma fan_out_failed (w : Writer) tid
    (stage : ThreadId -> ViewInfo -> World -> ViewInfo * World)
    (s : World) views' s' :
  fan_out env w tid stage s = (views', s', true) -> Exists view_failed views'.
Proof.
  unfold fan_out. destruct (1 <? pool_size w).
  - destruct (run_in_pool env stage 0 (views w) 0 s) as [[vs' s1] c] eqn:Hrun.
    intros [= <- <- Hc]. eapply run_in_pool_failed; [exact Hrun|].
    intros ->. done.
  - apply run_sequentially_failed.
Qed.

(** check_exceptions_in_views logs and rethrows what the first view that
    holds an exception holds. *)
Lemma check_exceptions_first (w : Writer) pre view post ex (s : World) :
  views w = pre ++ view :: post ->
  Forall (fun v => exception v = None) pre ->
  exception view = Some ex ->
  check_exceptions_in_views env w s = (Threw ex, log_query_views env w s).
Proof.
  intros Hviews Hpre Hview. unfold check_exceptions_in_views. rewrite Hviews.
  clear Hviews. induction Hpre as [|v pre Hv Hpre IH]; simpl.
  - by rewrite Hview.
  - by rewrite Hv.
Qed.

(** *** Telemetry *)

Lemma log_query_views_loop_trace d (vs : list ViewInfo) (s : World) :
  trace (log_query_views_loop env d vs s)
  = trace s ++ map LogToQueryViewsLog
                 (List.filter
                    (fun view =>
                       negb (negb (d =? 0)
                             && (elapsed_ms (runtime_stats view) <=? d)))
                    vs).
Proof.
  revert s; induction vs as [|view rest IH]; intros s; simpl.
  - by rewrite app_nil_r.
  - destruct (_ && _); simpl; [apply IH|].
    rewrite IH. simpl. by rewrite <- app_assoc.
Qed.

Lemma log_query_views_trace (w : Writer) (s : World) :
  trace (log_query_views env w s)
  = trace s ++ map LogToQueryViewsLog (logged_views w).
Proof.
  unfold log_query_views, logged_views.
  destruct (views w) eqn:Hviews.
  - simpl. destruct (_ || _); by rewrite app_nil_r.
  - destruct (_ || _); [by rewrite app_nil_r|].
    apply log_query_views_loop_trace.
Qed.

Lemma run_sequentially_trace
    (stage : ViewInfo -> World -> ViewInfo * World)
    (events : ViewInfo -> list Event) vs (s : World) vs' s' :
  (forall view s0, trace (snd (stage view s0)) = trace s0 ++ events view) ->
  run_sequentially stage vs s = (vs', s', false) ->
  trace s' = trace s ++ flat_map events vs.
Proof.
  intros Hstage. revert s vs' s'.
  induction vs as [|view rest IH]; intros s vs' s'; simpl.
  - intros [= <- <-]. by rewrite app_nil_r.
  - specialize (Hstage view s) as Hv.
    destruct (stage view s) as [view' s1]. simpl in Hv.
    destruct (exception view'); [done|].
    destruct (run_sequentially stage rest s1) as [[rest' s2] f] eqn:Hrest.
    intros [= <- <- ->]. rewrite (IH _ _ _ Hrest), Hv. by rewrite <- app_assoc.
Qed.

Lemma views_nonempty (w : Writer) pre view post :
  views w = pre ++ view :: post -> exists v vs, views w = v :: vs.
Proof. intros ->. destruct pre; simpl; eauto. Qed.

(** C10 (sequential write).  With parallel_view_processing off, write
    walks the views in order and stops at the first view that holds an
    exception once its block stage has run: the views after it keep their
    record unchanged, and after that stage nothing more happens than the
    telemetry records and the rethrow. *)
Theorem sequential_write_stops_at_first_exception
    (w : Writer) (tid : ThreadId) (block : Block)
    (pre : list ViewInfo) (view : ViewInfo) (post : list ViewInfo)
    (s s0 s1 s2 : World) (pre' : list ViewInfo) (view' : ViewInfo) :
  parallel_view_processing (context w) = false ->
  views w = pre ++ view :: post ->
  validateArraySizes env block = None ->
  write_to_destination env w block s = (Returned, s0) ->
  negb (deduplicate_blocks_in_dependent_materialized_views (context w))
    && replicated_output w && lastBlockIsDuplicate env (trace s0) = false ->
  run_sequentially (process env w tid block) pre s0 = (pre', s1, false) ->
  process env w tid block view s1 = (view', s2) ->
  view_failed view' ->
  let w' := set_views (pre' ++ view' :: post) w in
  exists ex,
    exception view' = Some ex
    /\ write env w tid block s = (Threw ex, w', log_query_views env w' s2)
    /\ trace (log_query_views env w' s2)
       = trace s2 ++ map LogToQueryViewsLog (logged_views w').
Proof.
  intros Hseq Hviews Hvalid Hdest Hgate Hpre Hview Hfailed w'.
  unfold view_failed in Hfailed.
  destruct (exception view') as [ex|] eqn:Hex; [|done].
  exists ex. split; [done|]. split; [|apply log_query_views_trace].
  unfold write. rewrite Hvalid, Hdest. unfold push_to_views.
  destruct (views_nonempty w pre view post Hviews) as (v & vs & Hne).
  rewrite Hne, Hgate, fan_out_sequential by done.
  rewrite Hviews.
  rewrite (run_sequentially_break _ pre view post s0 pre' s1 view' s2 Hpre Hview)
    by (unfold view_failed; congruence).
  fold w'.
  rewrite (check_exceptions_first w' pre' view' post ex s2); [done|done| |done].
  by eapply run_sequentially_clean.
Qed.

(** C5, as the code has it.  writePrefix calls the direct sink's prefix and
    then the prefix stage of the views one at a time in view order.  When no
    view holds an exception after its stage, every view is run and
    writePrefix returns.  Otherwise the loop ends with the first view that
    holds an exception once its stage has run: the views after that one are
    not run and keep their record, the writer writes the telemetry records
    and does not return normally. *)
Theorem prefix_stops_at_first_exception
    (w : Writer) (tid : ThreadId) (handled : option Exception) (s s1 : World) :
  (if output w then invoke env OutputWritePrefix s else (None, s)) = (None, s1) ->
  (forall views' (s2 : World),
      run_sequentially (process_prefix env tid) (views w) s1 = (views', s2, false) ->
      writePrefix env w tid handled s = (Returned, set_views views' w, s2)
      /\ trace s2 = trace s1 ++ flat_map prefix_events (views w))
  /\ (forall pre view post pre' (s2 : World) view' (s3 : World),
        views w = pre ++ view :: post ->
        run_sequentially (process_prefix env tid) pre s1 = (pre', s2, false) ->
        process_prefix env tid view s2 = (view', s3) ->
        view_failed view' ->
        let w' := set_views (pre' ++ view' :: post) w in
        exists o,
          writePrefix env w tid handled s = (o, w', log_query_views env w' s3)
          /\ o <> Returned
          /\ trace s3 = trace s1 ++ flat_map prefix_events (pre ++ [view])
          /\ trace (log_query_views env w' s3)
             = trace s3 ++ map LogToQueryViewsLog (logged_views w')).
Proof.
  intros Hout. split.
  - intros views' s2 Hrun. split.
    + unfold writePrefix. by rewrite Hout, Hrun.
    + exact (run_sequentially_trace _ prefix_events (views w) s1 views' s2
               (process_prefix_trace tid) Hrun).
  - intros pre view post pre' s2 view' s3 Hviews Hpre Hview Hfailed w'.
    exists (rethrow_current handled). split; [|split; [|split]].
    + unfold writePrefix. rewrite Hout, Hviews.
      by rewrite (run_sequentially_break _ pre view post s1 pre' s2 view' s3
                    Hpre Hview Hfailed).
    + by destruct handled.
    + rewrite flat_map_app, app_assoc.
      rewrite <- (run_sequentially_trace _ prefix_events pre s1 pre' s2
                    (process_prefix_trace tid) Hpre).
      pose proof (process_prefix_trace tid view s2) as Ht.
      rewrite Hview in Ht. exact Ht.
    + apply log_query_views_trace.
Qed.

(** C3, as the code has it.  The writer does not skip a view that holds a
    captured exception.  In the sequential mode writeSuffix runs the suffix
    stage of the views in order; when it comes to a view that already holds
    an exception it calls writeSuffix on that view's sink all the same.  The
    exception stays in the record, so the loop stops there: the views after
    it are not run, the telemetry records are written and the exception is
    rethrown. *)
Theorem suffix_runs_on_failed_view
    (w : Writer) (tid : ThreadId)
    (pre : list ViewInfo) (view : ViewInfo) (post : list ViewInfo)
    (s s1 s2 : World) (pre' : list ViewInfo) :
  parallel_view_processing (context w) = false ->
  (if output w then invoke env OutputWriteSuffix s else (None, s)) = (None, s1) ->
  views w = pre ++ view :: post ->
  view_failed view ->
  run_sequentially (process_suffix env tid) pre s1 = (pre', s2, false) ->
  let view' := fst (process_suffix env tid view s2) in
  let s3 := snd (process_suffix env tid view s2) in
  let w' := set_views (pre' ++ view' :: post) w in
  exists ex,
    exception view' = Some ex
    /\ trace s3 = trace s1 ++ flat_map suffix_events (pre ++ [view])
    /\ writeSuffix env w tid s = (Threw ex, w', log_query_views env w' s3)
    /\ trace (log_query_views env w' s3)
       = trace s3 ++ map LogToQueryViewsLog (logged_views w').
Proof.
  intros Hseq Hout Hviews Hfailed Hpre view' s3 w'.
  assert (Hfailed' : view_failed view')
    by (apply run_stage_keeps_exception; exact Hfailed).
  unfold view_failed in Hfailed'.
  destruct (exception view') as [ex|] eqn:Hex; [|done].
  exists ex. split; [done|]. split; [|split].
  - rewrite flat_map_app, app_assoc.
    rewrite <- (run_sequentially_trace _ suffix_events pre s1 pre' s2
                  (process_suffix_trace tid) Hpre).
    apply process_suffix_trace.
  - unfold writeSuffix. rewrite Hout.
    destruct (views_nonempty w pre view post Hviews) as (v & vs & Hne).
    rewrite Hne, fan_out_sequential by done. rewrite Hviews.
    assert (Hview : process_suffix env tid view s2 = (view', s3))
      by apply surjective_pairing.
    rewrite (run_sequentially_break _ pre view post s1 pre' s2 view' s3 Hpre Hview)
      by (unfold view_failed; congruence).
    fold w'.
    rewrite (check_exceptions_first w' pre' view' post ex s3); [done|done| |done].
    by eapply run_sequentially_clean.
  - apply log_query_views_trace.
Qed.

(** *** The text added to a captured DB::Exception *)

Lemma string_app_nil_r (a : string) : a +:+ "" = a.
Proof.
  induction a as [|c a IH]; [done|].
  change (String c (a +:+ "") = String c a). by rewrite IH.
Qed.

Lemma string_app_assoc (a b c : string) : (a +:+ b) +:+ c = a +:+ b +:+ c.
Proof.
  induction a as [|x a IH]; [done|].
  change (String x ((a +:+ b) +:+ c) = String x (a +:+ b +:+ c)). by rewrite IH.
Qed.


Lemma run_stage_annotates tid text st body (view : ViewInfo) (s : World) :
  addMessage_adds env ->
  exception view = None ->
  annotated text (fst (run_stage env tid text st body view s)).
Proof.
  intros Hadd Hfresh ex. rewrite run_stage_exception, run_stage_table_id, Hfresh.
  destruct (fst (body _)) as [ex0|]; [|done].
  destruct (ex_class ex0) eqn:Hclass.
  - intros [= <-] _. apply Hadd.
  - intros [= <-]. congruence.
Qed.

Lemma run_sequentially_Forall
    (stage : ViewInfo -> World -> ViewInfo * World)
    (P Q : ViewInfo -> Prop) vs (s : World) :
  (forall view, P view -> Q view) ->
  (forall view s0, P view -> Q (fst (stage view s0))) ->
  Forall P vs ->
  Forall Q (fst (fst (run_sequentially stage vs s))).
Proof.
  intros HPQ Hstage HP. revert s.
  induction HP as [|view rest Hview Hrest IH]; intros s; simpl; [constructor|].
  specialize (Hstage view s Hview).
  destruct (stage view s) as [view' s1]. simpl in Hstage.
  destruct (exception view'); simpl.
  - constructor; [done|]. by eapply Forall_impl.
  - specialize (IH s1).
    destruct (run_sequentially stage rest s1) as [[rest' s2] f].
    by constructor.
Qed.

Lemma run_in_pool_Forall
    (stage : ThreadId -> ViewInfo -> World -> ViewInfo * World)
    (P Q : ViewInfo -> Prop) job vs count (s : World) :
  (forall view, P view -> Q view) ->
  (forall t view s0, P view -> Q (fst (stage t view s0))) ->
  Forall P vs ->
  Forall Q (fst (fst (run_in_pool env stage job vs count s))).
Proof.
  intros HPQ Hstage HP. revert job count s.
  induction HP as [|view rest Hview Hrest IH]; intros job count s; simpl;
    [constructor|].
  destruct (negb _).
  - specialize (IH (S job) count s).
    destruct (run_in_pool env stage (S job) rest count s) as [[rest' s1] c].
    constructor; [by apply HPQ | done].
  - specialize (Hstage (pool_worker env (trace s) job) view s Hview).
    destruct (stage _ view s) as [view' s1]. simpl in Hstage.
    match goal with
    | |- context [run_in_pool env stage (S job) rest ?c s1] =>
        specialize (IH (S job) c s1);
        destruct (run_in_pool env stage (S job) rest c s1) as [[rest' s2] c']
    end.
    by constructor.
Qed.

Lemma fan_out_Forall (w : Writer) tid
    (stage : ThreadId -> ViewInfo -> World -> ViewInfo * World)
    (P Q : ViewInfo -> Prop) (s : World) :
  (forall view, P view -> Q view) ->
  (forall t view s0, P view -> Q (fst (stage t view s0))) ->
  Forall P (views w) ->
  Forall Q (fst (fst (fan_out env w tid stage s))).
Proof.
  intros HPQ Hstage HP. unfold fan_out. destruct (1 <? pool_size w).
  - pose proof (run_in_pool_Forall stage P Q 0 (views w) 0 s HPQ Hstage HP) as H.
    by destruct (run_in_pool env stage 0 (views w) 0 s) as [[vs' s'] c].
  - apply (run_sequentially_Forall _ P Q); auto.
Qed.

Lemma fan_out_nil (w : Writer) tid
    (stage : ThreadId -> ViewInfo -> World -> ViewInfo * World) (s : World) :
  views w = [] -> fan_out env w tid stage s = ([], s, false).
Proof. intros H. unfold fan_out. rewrite H. by destruct (1 <? pool_size w). Qed.

(** After a fan-out of block stages over views that held no exception, every
    DB::Exception a view holds names that view. *)
Lemma fan_out_process_annotated (w : Writer) tid block (s : World) :
  addMessage_adds env ->
  Forall (fun view => exception view = None) (views w) ->
  Forall (annotated "while pushing to view ")
    (fst (fst (fan_out env w tid (fun t => process env w t block) s))).
Proof.
  intros Hadd. apply fan_out_Forall.
  - intros view Hfresh ex. congruence.
  - intros t view s0 Hfresh. by apply run_stage_annotates.
Qed.

(** What a stage runner stores in a view that held no exception: what its
    body threw, with the text and the view's name added when that is a
    DB::Exception, and as it was thrown otherwise. *)
Lemma run_stage_captures tid text st body (T : Exception -> Prop)
    (view : ViewInfo) (s : World) :
  (forall s0 thrown, fst (body s0) = Some thrown -> T thrown) ->
  exception view = None ->
  forall ex,
    exception (fst (run_stage env tid text st body view s)) = Some ex ->
    exists thrown,
      T thrown
      /\ ex = match ex_class thrown with
              | DBException => addMessage env (text +:+ table_id view) thrown
              | ForeignException => thrown
              end.
Proof.
  intros Hbody Hfresh ex. rewrite run_stage_exception, Hfresh.
  destruct (fst (body _)) as [thrown|] eqn:Hthrown; [|done].
  apply Hbody in Hthrown. intros Hex. exists thrown. split; [done|].
  destruct (ex_class thrown); congruence.
Qed.

Lemma run_stage_query tid text st body (view : ViewInfo) (s : World) :
  query (fst (run_stage env tid text st body view s)) = query view.
Proof.
  unfold run_stage. destruct (body _) as [[ex|] s2]; simpl; [|done].
  unfold capture. by destruct (ex_class ex).
Qed.

Lemma run_stage_out tid text st body (view : ViewInfo) (s : World) :
  out (fst (run_stage env tid text st body view s)) = out view.
Proof.
  unfold run_stage. destruct (body _) as [[ex|] s2]; simpl; [|done].
  unfold capture. by destruct (ex_class ex).
Qed.

Lemma write_blocks_thrown (view : ViewInfo) blocks (s : World) ex :
  fst (write_blocks env view blocks s) = Some ex ->
  (exists b, validateArraySizes env b = Some ex)
  \/ (exists tr b, answer env tr (ViewOutWrite (table_id view) b) = Some ex).
Proof.
  revert s. induction blocks as [|b rest IH]; intros s; simpl; [done|].
  destruct (block_has_columns env b); [|done].
  destruct (validateArraySizes env b) as [e|] eqn:Hvalid.
  { intros [= <-]. left. by exists b. }
  destruct (answer env (trace s) (ViewOutWrite (table_id view) b))
    as [e|] eqn:Hans.
  { intros [= <-]. right. by exists (trace s), b. }
  apply IH.
Qed.

Lemma process_body_thrown (w : Writer) block (view : ViewInfo) (s : World) ex :
  fst (process_body env w block view s) = Some ex ->
  thrown_in_block_stage env w block view ex.
Proof.
  unfold process_body, thrown_in_block_stage.
  destruct (query view) as [q|].
  - destruct (view_stream env _ q block _ _ _) as [blocks failure] eqn:Hstream.
    pose proof (write_blocks_thrown view blocks s) as Hloop.
    destruct (write_blocks env view blocks s) as [[e|] s']; simpl in *.
    + intros [= <-]. destruct (Hloop e eq_refl); auto.
    + intros ->. right. right. exists q. by rewrite Hstream.
  - pose proof (write_blocks_thrown view [block] s) as Hloop.
    destruct (write_blocks env view _ s) as [[e|] s']; simpl in *; [|done].
    intros [= <-]. destruct (Hloop e eq_refl); auto.
Qed.

(** After a fan-out of block stages over views that held no exception, the
    exception a view holds is the one its block stage threw, as the catch
    clause of its class stores it. *)
Lemma fan_out_process_captured (w : Writer) tid block (s : World) :
  Forall (fun view => exception view = None) (views w) ->
  Forall (fun view =>
            forall ex,
              exception view = Some ex ->
              exists thrown,
                thrown_in_block_stage env w block view thrown
                /\ ex = match ex_class thrown with
                        | DBException =>
                            addMessage env
                              ("while pushing to view " +:+ table_id view) thrown
                        | ForeignException => thrown
                        end)
    (fst (fst (fan_out env w tid (fun t => process env w t block) s))).
Proof.
  apply fan_out_Forall.
  - intros view Hfresh ex. congruence.
  - intros t view s0 Hfresh ex Hex. unfold process in *.
    rewrite run_stage_table_id.
    destruct (run_stage_captures t "while pushing to view " WRITTEN_BLOCK
                (process_body env w block view)
                (thrown_in_block_stage env w block view) view s0
                (fun s1 thrown => process_body_thrown w block view s1 thrown)
                Hfresh ex Hex) as (thrown & Hthrown & ->).
    exists thrown. split; [|done].
    unfold thrown_in_block_stage in *.
    by rewrite run_stage_table_id, run_stage_query, run_stage_out.
Qed.

(** After a fan-out of suffix stages over views that held no exception, the
    exception a view holds is the one writeSuffix threw on its sink, as the
    catch clause of its class stores it. *)
Lemma fan_out_suffix_captured (w : Writer) tid (s : World) :
  Forall (fun view => exception view = None) (views w) ->
  Forall (fun view =>
            forall ex,
              exception view = Some ex ->
              exists thrown tr,
                answer env tr (ViewOutWriteSuffix (table_id view)) = Some thrown
                /\ ex = match ex_class thrown with
                        | DBException =>
                            addMessage env
                              ("while writing suffix to view " +:+ table_id view)
                              thrown
                        | ForeignException => thrown
                        end)
    (fst (fst (fan_out env w tid (process_suffix env) s))).
Proof.
  apply fan_out_Forall.
  - intros view Hfresh ex. congruence.
  - intros t view s0 Hfresh ex Hex. unfold process_suffix in *.
    rewrite run_stage_table_id.
    destruct (run_stage_captures t "while writing suffix to view " WRITTEN_SUFFIX
                (invoke env (ViewOutWriteSuffix (table_id view)))
                (fun thrown =>
                   exists tr,
                     answer env tr (ViewOutWriteSuffix (table_id view))
                     = Some thrown)
                view s0
                (fun s1 thrown H => ex_intro _ (trace s1) H)
                Hfresh ex Hex) as (thrown & [tr Hthrown] & ->).
    by exists thrown, tr.
Qed.

(** C7, as the code has it.  When the fan-out of write or of writeSuffix
    ends with exception_happened set, the writer writes the telemetry
    records of the view set and rethrows the exception held by the first
    view, in view order, that holds one.  When no view held an exception
    beforehand, that exception is the one the stage of that view threw, as
    the catch clause of its class stored it: a DB::Exception with the text
    of the stage and the name of the view added by addMessage, an exception
    of any other class as it was thrown.  So in write the message of a
    rethrown DB::Exception contains "while pushing to view " followed by
    the name of that view. *)
Theorem first_view_exception_rethrown (w : Writer) (tid : ThreadId) :
  (forall block (s s0 : World) views' (s1 : World),
      validateArraySizes env block = None ->
      write_to_destination env w block s = (Returned, s0) ->
      negb (deduplicate_blocks_in_dependent_materialized_views (context w))
        && replicated_output w && lastBlockIsDuplicate env (trace s0) = false ->
      fan_out env w tid (fun t => process env w t block) s0 = (views', s1, true) ->
      let w' := set_views views' w in
      exists pre view post ex,
        views' = pre ++ view :: post
        /\ Forall (fun v => exception v = None) pre
        /\ exception view = Some ex
        /\ write env w tid block s = (Threw ex, w', log_query_views env w' s1)
        /\ trace (log_query_views env w' s1)
           = trace s1 ++ map LogToQueryViewsLog (logged_views w')
        /\ (addMessage_adds env ->
            Forall (fun v => exception v = None) (views w) ->
            ex_class ex = DBException ->
            contains ("while pushing to view " +:+ table_id view) (ex_message ex))
        /\ (Forall (fun v => exception v = None) (views w) ->
            exists thrown,
              thrown_in_block_stage env w block view thrown
              /\ ex = match ex_class thrown with
                      | DBException =>
                          addMessage env
                            ("while pushing to view " +:+ table_id view) thrown
                      | ForeignException => thrown
                      end))
  /\ (forall (s s0 : World) views' (s1 : World),
      (if output w then invoke env OutputWriteSuffix s else (None, s)) = (None, s0) ->
      fan_out env w tid (process_suffix env) s0 = (views', s1, true) ->
      let w' := set_views views' w in
      exists pre view post ex,
        views' = pre ++ view :: post
        /\ Forall (fun v => exception v = None) pre
        /\ exception view = Some ex
        /\ writeSuffix env w tid s = (Threw ex, w', log_query_views env w' s1)
        /\ trace (log_query_views env w' s1)
           = trace s1 ++ map LogToQueryViewsLog (logged_views w')
        /\ (Forall (fun v => exception v = None) (views w) ->
            exists thrown tr,
              answer env tr (ViewOutWriteSuffix (table_id view)) = Some thrown
              /\ ex = match ex_class thrown with
                      | DBException =>
                          addMessage env
                            ("while writing suffix to view " +:+ table_id view)
                            thrown
                      | ForeignException => thrown
                      end)).
Proof.
  split.
  - intros block s s0 views' s1 Hvalid Hdest Hgate Hfan w'.
    destruct (first_failed_view views' (fan_out_failed _ _ _ _ _ _ Hfan))
      as (pre & view & post & ex & Hsplit & Hpre & Hview).
    exists pre, view, post, ex.
    split; [done|]. split; [done|]. split; [done|].
    split; [|split; [apply log_query_views_trace|split]].
    + unfold write. rewrite Hvalid, Hdest. unfold push_to_views.
      destruct (views w) as [|v vs] eqn:Hviews.
      { rewrite fan_out_nil in Hfan by done. done. }
      rewrite Hgate, Hfan. fold w'.
      by rewrite (check_exceptions_first w' pre view post ex s1).
    + intros Hadd Hfresh Hclass.
      pose proof (fan_out_process_annotated w tid block s0 Hadd Hfresh) as Hann.
      rewrite Hfan in Hann. simpl in Hann. rewrite Hsplit in Hann.
      apply Forall_app in Hann as [_ Hann].
      apply Forall_cons in Hann as [Hann _]. by apply Hann.
    + intros Hfresh.
      pose proof (fan_out_process_captured w tid block s0 Hfresh) as Hcap.
      rewrite Hfan in Hcap. simpl in Hcap. rewrite Hsplit in Hcap.
      apply Forall_app in Hcap as [_ Hcap].
      apply Forall_cons in Hcap as [Hcap _]. by apply Hcap.
  - intros s s0 views' s1 Hout Hfan w'.
    destruct (first_failed_view views' (fan_out_failed _ _ _ _ _ _ Hfan))
      as (pre & view & post & ex & Hsplit & Hpre & Hview).
    exists pre, view, post, ex.
    split; [done|]. split; [done|]. split; [done|].
    split; [|split; [apply log_query_views_trace|]].
    + unfold writeSuffix. rewrite Hout.
      destruct (views w) as [|v vs] eqn:Hviews.
      { rewrite fan_out_nil in Hfan by done. done. }
      rewrite Hfan. fold w'.
      by rewrite (check_exceptions_first w' pre view post ex s1).
    + intros Hfresh.
      pose proof (fan_out_suffix_captured w tid s0 Hfresh) as Hcap.
      rewrite Hfan in Hcap. simpl in Hcap. rewrite Hsplit in Hcap.
      apply Forall_app in Hcap as [_ Hcap].
      apply Forall_cons in Hcap as [Hcap _]. by apply Hcap.
Qed.

(** *** The constructor *)

Lemma make_insert_context_insert_deduplicate context disable :
  insert_deduplicate (make_insert_context context disable)
  = if disable then false else insert_deduplicate context.
Proof.
  unfold make_insert_context.
  destruct disable; repeat (destruct (negb _); simpl); reflexivity.
Qed.

Lemma make_insert_context_rows context disable :
  min_insert_block_size_rows (make_insert_context context disable)
  = if min_insert_block_size_rows_for_materialized_views context =? 0
    then min_insert_block_size_rows context
    else min_insert_block_size_rows_for_materialized_views context.
Proof.
  unfold make_insert_context.
  destruct disable; simpl;
    destruct (min_insert_block_size_rows_for_materialized_views context =? 0);
    simpl;
    destruct (min_insert_block_size_bytes_for_materialized_views context =? 0);
    reflexivity.
Qed.

Lemma make_insert_context_bytes context disable :
  min_insert_block_size_bytes (make_insert_context context disable)
  = if min_insert_block_size_bytes_for_materialized_views context =? 0
    then min_insert_block_size_bytes context
    else min_insert_block_size_bytes_for_materialized_views context.
Proof.
  unfold make_insert_context.
  destruct disable; simpl;
    destruct (min_insert_block_size_rows_for_materialized_views context =? 0);
    simpl;
    destruct (min_insert_block_size_bytes_for_materialized_views context =? 0);
    reflexivity.
Qed.

(** C9, as the code has it.  The constructor makes the select context and
    the insert context exactly when the catalog lists a dependency, the
    select context being a copy of the caller's.  In the insert context
    insert_deduplicate is set to false when the writer has a destination
    (no_destination is false), the storage supports deduplication and
    deduplicate_blocks_in_dependent_materialized_views is off; otherwise it
    keeps the caller's value.  A non-zero
    min_insert_block_size_rows_for_materialized_views (or ..._bytes_...)
    becomes min_insert_block_size_rows (or ..._bytes). *)
Theorem constructor_contexts (catalog : Catalog Query)
    (storage_ : Storage Query) (context_ : Settings) (no_destination : bool)
    (tid : ThreadId) (s : World) :
  let w := fst (construct catalog storage_ context_ no_destination tid s) in
  let disable :=
    negb (deduplicate_blocks_in_dependent_materialized_views context_)
    && negb no_destination && supportsDeduplication storage_ in
  match getDependencies catalog (storage_id storage_) with
  | [] => select_context w = None /\ insert_context w = None
  | _ :: _ =>
      select_context w = Some context_
      /\ exists insert_ctx,
           insert_context w = Some insert_ctx
           /\ insert_deduplicate insert_ctx
              = (if disable then false else insert_deduplicate context_)
           /\ min_insert_block_size_rows insert_ctx
              = (if min_insert_block_size_rows_for_materialized_views context_ =? 0
                 then min_insert_block_size_rows context_
                 else min_insert_block_size_rows_for_materialized_views context_)
           /\ min_insert_block_size_bytes insert_ctx
              = (if min_insert_block_size_bytes_for_materialized_views context_ =? 0
                 then min_insert_block_size_bytes context_
                 else min_insert_block_size_bytes_for_materialized_views context_)
  end.
Proof.
  unfold construct.
  destruct (getDependencies catalog (storage_id storage_)) as [|d ds]; [done|].
  destruct (bind_views catalog _ tid 0 (d :: ds) s) as [[vs locks] s'].
  simpl. split; [done|]. eexists. split; [reflexivity|].
  rewrite make_insert_context_insert_deduplicate,
    make_insert_context_rows, make_insert_context_bytes.
  split; [|done].
  by destruct (deduplicate_blocks_in_dependent_materialized_views context_),
       no_destination, (supportsDeduplication storage_).
Qed.

End Properties.

Example scenario_views :
  views Scenario.writer = [Scenario.mv1; Scenario.mv2; Scenario.mv3]
  /\ views Scenario.writer_after_write
     = [Scenario.mv1_written; Scenario.mv2_failed; Scenario.mv3]
  /\ current_thread (snd (construct Scenario.catalog (Scenario.table "db.t")
                            Scenario.settings false 0%nat Scenario.start))
     = current_thread Scenario.start.
Proof. repeat split; vm_compute; reflexivity. Qed.

(** ** The theorems at work on the concrete insert *)

(** Witness for C8: a block whose two sibling columns differ in the second
    row. *)
Lemma write_rejects_mismatched_arrays_witness :
  validateArraySizes Scenario.quiet Scenario.bad_block
  = Some Scenario.sizes_mismatch
  /\ write Scenario.quiet Scenario.writer 0%nat Scenario.bad_block Scenario.start
     = (Threw Scenario.sizes_mismatch, Scenario.writer, Scenario.start).
Proof.
  assert (H : validateArraySizes Scenario.quiet Scenario.bad_block
              = Some Scenario.sizes_mismatch) by (vm_compute; reflexivity).
  split; [exact H|].
  exact (write_rejects_mismatched_arrays Scenario.quiet Scenario.writer 0%nat
           Scenario.bad_block Scenario.start Scenario.sizes_mismatch H).
Defined.

(** Witness for C6: the insert into db.t when the replicated sink reports
    a duplicate. *)
Lemma duplicate_block_skips_views_witness :
  exists o s' evs,
    write Scenario.duplicate Scenario.writer 0%nat Scenario.good_block Scenario.start
    = (o, Scenario.writer, s')
    /\ trace s' = trace Scenario.start ++ evs
    /\ Forall (fun ev => is_view_call ev = false) evs.
Proof.
  apply (duplicate_block_skips_views Scenario.duplicate Scenario.writer 0%nat
           Scenario.good_block Scenario.start);
    vm_compute; reflexivity.
Defined.

(** Witness for C10: the sink of db.mv2 throws on write, and db.mv3 keeps
    its record. *)
Lemma sequential_write_stops_at_first_exception_witness :
  let w' := set_views [Scenario.mv1_written; Scenario.mv2_failed; Scenario.mv3]
              Scenario.writer in
  exists ex,
    exception Scenario.mv2_failed = Some ex
    /\ write Scenario.mv2_fails Scenario.writer 0%nat Scenario.good_block
         Scenario.start
       = (Threw ex, w', log_query_views Scenario.mv2_fails w' Scenario.after_mv2)
    /\ trace (log_query_views Scenario.mv2_fails w' Scenario.after_mv2)
       = trace Scenario.after_mv2 ++ map LogToQueryViewsLog (logged_views w').
Proof.
  apply (sequential_write_stops_at_first_exception Scenario.mv2_fails
           Scenario.writer 0%nat Scenario.good_block
           [Scenario.mv1] Scenario.mv2 [Scenario.mv3]
           Scenario.start Scenario.after_destination Scenario.after_mv1
           Scenario.after_mv2 [Scenario.mv1_written] Scenario.mv2_failed);
    try (vm_compute; reflexivity).
  vm_compute. discriminate.
Defined.

(** Witness for C5: nothing throws; and the sink of db.mv2 throws on
    writePrefix. *)
Lemma prefix_stops_at_first_exception_witness :
  (let views' := fst (fst (run_sequentially (process_prefix Scenario.quiet 0%nat)
                             (views Scenario.writer)
                             Scenario.after_output_prefix)) in
   let s2 := snd (fst (run_sequentially (process_prefix Scenario.quiet 0%nat)
                         (views Scenario.writer)
                         Scenario.after_output_prefix)) in
   writePrefix Scenario.quiet Scenario.writer 0%nat None Scenario.start
   = (Returned, set_views views' Scenario.writer, s2)
   /\ trace s2 = trace Scenario.after_output_prefix
                 ++ flat_map prefix_events (views Scenario.writer))
  /\ (let w' := set_views
                  [Scenario.mv1_prefixed; Scenario.mv2_prefix_failed; Scenario.mv3]
                  Scenario.writer in
      exists o,
        writePrefix Scenario.mv2_prefix_fails Scenario.writer 0%nat None
          Scenario.start
        = (o, w',
           log_query_views Scenario.mv2_prefix_fails w' Scenario.after_mv2_prefix)
        /\ o <> Returned
        /\ trace Scenario.after_mv2_prefix
           = trace Scenario.after_output_prefix
             ++ flat_map prefix_events ([Scenario.mv1] ++ [Scenario.mv2])
        /\ trace (log_query_views Scenario.mv2_prefix_fails w'
                    Scenario.after_mv2_prefix)
           = trace Scenario.after_mv2_prefix
             ++ map LogToQueryViewsLog (logged_views w')).
Proof.
  split.
  - apply (proj1 (prefix_stops_at_first_exception Scenario.quiet Scenario.writer
                    0%nat None Scenario.start Scenario.after_output_prefix
                    ltac:(vm_compute; reflexivity)));
      vm_compute; reflexivity.
  - apply (proj2 (prefix_stops_at_first_exception Scenario.mv2_prefix_fails
                    Scenario.writer 0%nat None Scenario.start
                    Scenario.after_output_prefix
                    ltac:(vm_compute; reflexivity))
             [Scenario.mv1] Scenario.mv2 [Scenario.mv3]
             [Scenario.mv1_prefixed] Scenario.after_mv1_prefix
             Scenario.mv2_prefix_failed Scenario.after_mv2_prefix);
      try (vm_compute; reflexivity).
    vm_compute. discriminate.
Defined.

(** Witness for C3: the writeSuffix that follows the failed write. *)
Lemma suffix_runs_on_failed_view_witness :
  let view' := fst (process_suffix Scenario.mv2_fails 0%nat Scenario.mv2_failed
                      Scenario.after_mv1_suffix) in
  let s3 := snd (process_suffix Scenario.mv2_fails 0%nat Scenario.mv2_failed
                   Scenario.after_mv1_suffix) in
  let w' := set_views [Scenario.mv1_suffixed; view'; Scenario.mv3]
              Scenario.writer_after_write in
  exists ex,
    exception view' = Some ex
    /\ trace s3 = trace Scenario.after_output_suffix
                  ++ flat_map suffix_events
                       [Scenario.mv1_written; Scenario.mv2_failed]
    /\ writeSuffix Scenario.mv2_fails Scenario.writer_after_write 0%nat
         Scenario.after_write
       = (Threw ex, w', log_query_views Scenario.mv2_fails w' s3)
    /\ trace (log_query_views Scenario.mv2_fails w' s3)
       = trace s3 ++ map LogToQueryViewsLog (logged_views w').
Proof.
  apply (suffix_runs_on_failed_view Scenario.mv2_fails
           Scenario.writer_after_write 0%nat
           [Scenario.mv1_written] Scenario.mv2_failed [Scenario.mv3]
           Scenario.after_write Scenario.after_output_suffix
           Scenario.after_mv1_suffix [Scenario.mv1_suffixed]);
    try (vm_compute; reflexivity).
  vm_compute. discriminate.
Defined.

(** The addMessage of the scenario keeps its contract. *)
Lemma append_message_adds throws duplicate :
  addMessage_adds (Scenario.collaborators throws duplicate).
Proof.
  intros arg ex. exists (ex_message ex +:+ ": "), "". simpl.
  unfold Scenario.append_message. simpl.
  by rewrite string_app_nil_r, string_app_assoc.
Qed.

(** Witness for C7: the write that fails with a DB::Exception, the
    writeSuffix that follows it, and the write that fails with an exception
    of another class. *)
Lemma first_view_exception_rethrown_witness :
  addMessage_adds Scenario.mv2_fails
  /\ Forall (fun v => exception v = None) (views Scenario.writer)
  /\ (let w' := set_views [Scenario.mv1_written; Scenario.mv2_failed; Scenario.mv3]
               Scenario.writer in
   exists pre view post ex,
     [Scenario.mv1_written; Scenario.mv2_failed; Scenario.mv3]
     = pre ++ view :: post
     /\ Forall (fun v => exception v = None) pre
     /\ exception view = Some ex
     /\ write Scenario.mv2_fails Scenario.writer 0%nat Scenario.good_block
          Scenario.start
        = (Threw ex, w', log_query_views Scenario.mv2_fails w' Scenario.after_mv2)
     /\ trace (log_query_views Scenario.mv2_fails w' Scenario.after_mv2)
        = trace Scenario.after_mv2 ++ map LogToQueryViewsLog (logged_views w')
     /\ (addMessage_adds Scenario.mv2_fails ->
         Forall (fun v => exception v = None) (views Scenario.writer) ->
         ex_class ex = DBException ->
         contains ("while pushing to view " +:+ table_id view) (ex_message ex))
     /\ (Forall (fun v => exception v = None) (views Scenario.writer) ->
         exists thrown,
           thrown_in_block_stage Scenario.mv2_fails Scenario.writer
             Scenario.good_block view thrown
           /\ ex = match ex_class thrown with
                   | DBException =>
                       addMessage Scenario.mv2_fails
                         ("while pushing to view " +:+ table_id view) thrown
                   | ForeignException => thrown
                   end))
  /\ (let view' := fst (process_suffix Scenario.mv2_fails 0%nat
                          Scenario.mv2_failed Scenario.after_mv1_suffix) in
      let s1 := snd (process_suffix Scenario.mv2_fails 0%nat
                       Scenario.mv2_failed Scenario.after_mv1_suffix) in
      let w' := set_views [Scenario.mv1_suffixed; view'; Scenario.mv3]
                  Scenario.writer_after_write in
      exists pre view post ex,
        [Scenario.mv1_suffixed; view'; Scenario.mv3] = pre ++ view :: post
        /\ Forall (fun v => exception v = None) pre
        /\ exception view = Some ex
        /\ writeSuffix Scenario.mv2_fails Scenario.writer_after_write 0%nat
             Scenario.after_write
           = (Threw ex, w', log_query_views Scenario.mv2_fails w' s1)
        /\ trace (log_query_views Scenario.mv2_fails w' s1)
           = trace s1 ++ map LogToQueryViewsLog (logged_views w')
        /\ (Forall (fun v => exception v = None)
              (views Scenario.writer_after_write) ->
            exists thrown tr,
              answer Scenario.mv2_fails tr (ViewOutWriteSuffix (table_id view))
              = Some thrown
              /\ ex = match ex_class thrown with
                      | DBException =>
                          addMessage Scenario.mv2_fails
                            ("while writing suffix to view " +:+ table_id view)
                            thrown
                      | ForeignException => thrown
                      end))
  /\ (let fanned := fan_out Scenario.mv2_fails_foreign Scenario.writer 0%nat
                      (fun t => process Scenario.mv2_fails_foreign
                                  Scenario.writer t Scenario.good_block)
                      Scenario.after_destination in
      let w' := set_views (fst (fst fanned)) Scenario.writer in
      exists pre view post ex,
        fst (fst fanned) = pre ++ view :: post
        /\ Forall (fun v => exception v = None) pre
        /\ exception view = Some ex
        /\ write Scenario.mv2_fails_foreign Scenario.writer 0%nat
             Scenario.good_block Scenario.start
           = (Threw ex, w',
              log_query_views Scenario.mv2_fails_foreign w' (snd (fst fanned)))
        /\ trace (log_query_views Scenario.mv2_fails_foreign w'
                    (snd (fst fanned)))
           = trace (snd (fst fanned))
             ++ map LogToQueryViewsLog (logged_views w')
        /\ (addMessage_adds Scenario.mv2_fails_foreign ->
            Forall (fun v => exception v = None) (views Scenario.writer) ->
            ex_class ex = DBException ->
            contains ("while pushing to view " +:+ table_id view) (ex_message ex))
        /\ (Forall (fun v => exception v = None) (views Scenario.writer) ->
            exists thrown,
              thrown_in_block_stage Scenario.mv2_fails_foreign Scenario.writer
                Scenario.good_block view thrown
              /\ ex = match ex_class thrown with
                      | DBException =>
                          addMessage Scenario.mv2_fails_foreign
                            ("while pushing to view " +:+ table_id view) thrown
                      | ForeignException => thrown
                      end)).
Proof.
  split; [apply append_message_adds|].
  split; [vm_compute; repeat constructor|].
  split; [|split].
  - apply (proj1 (first_view_exception_rethrown Scenario.mv2_fails
                    Scenario.writer 0%nat)
             Scenario.good_block Scenario.start Scenario.after_destination
             [Scenario.mv1_written; Scenario.mv2_failed; Scenario.mv3]
             Scenario.after_mv2);
      vm_compute; reflexivity.
  - apply (proj2 (first_view_exception_rethrown Scenario.mv2_fails
                    Scenario.writer_after_write 0%nat)
             Scenario.after_write Scenario.after_output_suffix);
      vm_compute; reflexivity.
  - apply (proj1 (first_view_exception_rethrown Scenario.mv2_fails_foreign
                    Scenario.writer 0%nat)
             Scenario.good_block Scenario.start Scenario.after_destination);
      vm_compute; reflexivity.
Defined.

(** ** Where the code departs from the specification *)


(** Counterexample to C3 as stated.  db.mv2 failed during write; the
    writeSuffix that follows calls writeSuffix on the sink of db.mv2. *)
Lemma failed_view_gets_suffix :
  exception Scenario.mv2_failed
  = Some {| ex_class := DBException;
            ex_message := "boom: while pushing to view db.mv2" |}
  /\ views Scenario.writer_after_write
     = [Scenario.mv1_written; Scenario.mv2_failed; Scenario.mv3]
  /\ List.filter is_sink_call
       (drop (length (trace Scenario.after_write))
          (trace (snd (writeSuffix Scenario.mv2_fails Scenario.writer_after_write
                         0%nat Scenario.after_write))))
     = [OutputWriteSuffix; ViewOutWriteSuffix "db.mv1";
        ViewOutWriteSuffix "db.mv2"].
Proof. repeat split; vm_compute; reflexivity. Qed.

(** Counterexample to C4 as stated.  The flush of db.mv2 throws: flush
    throws at once and the sink of db.mv3 is not flushed. *)
Lemma flush_error_skips_remaining_views :
  map table_id (views Scenario.writer) = ["db.mv1"; "db.mv2"; "db.mv3"]%string
  /\ flush Scenario.mv2_flush_fails Scenario.writer Scenario.start
     = (Threw Scenario.boom,
        {| current_thread := current_thread Scenario.start;
           trace := [OutputFlush; ViewOutFlush "db.mv1"; ViewOutFlush "db.mv2"] |}).
Proof. split; vm_compute; reflexivity. Qed.

(** Counterexample to C5 as stated.  The prefix of db.mv2 throws while the
    caller handles no exception: the prefix of db.mv3 is not run, and
    [throw;] rethrows nothing: the captured exception stays in the view
    record and the program is terminated. *)
Lemma prefix_error_skips_remaining_views :
  map table_id (views Scenario.writer) = ["db.mv1"; "db.mv2"; "db.mv3"]%string
  /\ fst (fst (writePrefix Scenario.mv2_prefix_fails Scenario.writer 0%nat None
                 Scenario.start)) = Terminated
  /\ map exception
       (views (snd (fst (writePrefix Scenario.mv2_prefix_fails Scenario.writer
                           0%nat None Scenario.start))))
     = [None;
        Some {| ex_class := DBException;
                ex_message := "boom: while writing prefix to view db.mv2" |};
        None]
  /\ List.filter is_sink_call
       (trace (snd (writePrefix Scenario.mv2_prefix_fails Scenario.writer 0%nat
                      None Scenario.start)))
     = [OutputWritePrefix; ViewOutWritePrefix "db.mv1";
        ViewOutWritePrefix "db.mv2"].
Proof. repeat split; vm_compute; reflexivity. Qed.

Lemma string_length_app (a b : string) :
  String.length (a +:+ b) = (String.length a + String.length b)%nat.
Proof.
  induction a as [|c a IH]; [done|].
  change (S (String.length (a +:+ b)) = S (String.length a + String.length b)).
  by rewrite IH.
Qed.

Lemma contains_length needle hay :
  contains needle hay -> (String.length needle <= String.length hay)%nat.
Proof.
  intros (before & after & ->). rewrite !string_length_app. lia.
Qed.

(** Counterexample to C7 as stated.  The sink of db.mv2 throws a
    std::runtime_error: write rethrows it as it was caught, and its message
    does not name the view. *)
Lemma foreign_exception_rethrown_unannotated :
  fst (fst (write Scenario.mv2_fails_foreign Scenario.writer 0%nat
              Scenario.good_block Scenario.start))
  = Threw {| ex_class := ForeignException; ex_message := "boom" |}
  /\ map exception
       (views (snd (fst (write Scenario.mv2_fails_foreign Scenario.writer 0%nat
                           Scenario.good_block Scenario.start))))
     = [None; Some {| ex_class := ForeignException; ex_message := "boom" |}; None]
  /\ ~ contains "db.mv2" "boom".
Proof.
  split; [vm_compute; reflexivity|]. split; [vm_compute; reflexivity|].
  intros H. apply contains_length in H. simpl in H. lia.
Qed.

(** Counterexample to C9 as stated.  A writer without destination over a
    storage that supports deduplication: the insert context keeps
    insert_deduplicate = true. *)
Lemma no_destination_keeps_insert_deduplicate :
  supportsDeduplication (Scenario.table "db.t") = true
  /\ deduplicate_blocks_in_dependent_materialized_views Scenario.settings = false
  /\ getDependencies Scenario.catalog "db.t" = ["db.mv1"; "db.mv2"; "db.mv3"]%string
  /\ insert_deduplicate
       <$> insert_context
             (fst (construct Scenario.catalog (Scenario.table "db.t")
                     Scenario.settings true 0%nat Scenario.start))
     = Some true.
Proof. repeat split; vm_compute; reflexivity. Qed.

(** ** Further properties of the code *)

Section Coverage.

Context {Block Query : Type}.
Variable env : Collaborators Block Query.

Local Abbreviation ViewInfo := (ViewInfo Query).
Local Abbreviation Writer := (Writer Query).
Local Abbreviation World := (World Block Query).
Local Abbreviation Event := (Event Block Query).

(** *** The constructor *)

Lemma bind_views_current_thread (catalog : Catalog Query) insert_ctx tid n
    dependencies (s : World) :
  current_thread (snd (bind_views catalog insert_ctx tid n dependencies s))
  = current_thread s.
Proof.
  revert n s. induction dependencies as [|d rest IH]; intros n s; simpl; [done|].
  destruct (storage_kind (getTable catalog d));
    match goal with
    | |- context [bind_views catalog insert_ctx tid (S n) rest ?s2] =>
        specialize (IH (S n) s2);
        destruct (bind_views catalog insert_ctx tid (S n) rest s2)
          as [[views' locks'] s3]
    end;
    simpl in *; rewrite IH; apply assign_slot_restore.
Qed.

Lemma views_clear_cons (v : ViewInfo) rest tid (s : World) :
  views_clear env (v :: rest) tid s
  = views_clear env rest tid
      (set_current_thread tid
         (thread_status_dtor env (thread_status (runtime_stats v))) s).
Proof. reflexivity. Qed.

Lemma views_clear_trace (made : list ViewInfo) tid (s : World) :
  trace (views_clear env made tid s) = trace s.
Proof.
  revert s. induction made as [|v rest IH]; intros s; [done|].
  by rewrite views_clear_cons, IH.
Qed.

Lemma views_clear_nonempty (made : list ViewInfo) tid (s : World) :
  made <> [] ->
  exists view,
    In view made
    /\ current_thread (views_clear env made tid s)
       = assign_slot tid
           (thread_status_dtor env (thread_status (runtime_stats view)))
           (current_thread s).
Proof.
  revert s. induction made as [|v rest IH]; intros s Hne; [done|].
  rewrite views_clear_cons.
  destruct rest as [|v' rest'].
  - exists v. split; [by left | done].
  - destruct (IH (set_current_thread tid
                    (thread_status_dtor env (thread_status (runtime_stats v))) s))
      as (view & Hin & Hslot); [done|].
    exists view. split; [by right|].
    rewrite Hslot. simpl. apply assign_slot_twice.
Qed.

Lemma left_by_destructor_wider (catalog : Catalog Query) (faults : Faults)
    low high low' high' slot :
  (low' <= low)%nat -> (high <= high')%nat ->
  left_by_destructor env catalog faults low high slot ->
  left_by_destructor env catalog faults low' high' slot.
Proof.
  intros Hlow Hhigh (n & Hn & Hslot). exists n. split; [lia | done].
Qed.

Lemma bind_views_or_throw_spec (catalog : Catalog Query) (faults : Faults)
    insert_ctx tid n dependencies (s : World) :
  let r := bind_views_or_throw env catalog faults insert_ctx tid n dependencies s in
  trace (snd r) = trace s
  /\ Forall (fun view =>
               exists k, (n <= k < n + length dependencies)%nat
                         /\ thread_status (runtime_stats view)
                            = new_ThreadStatus catalog k)
       (snd (fst (fst r)))
  /\ match fst (fst (fst r)) with
     | None =>
         (snd (fst (fst r)), snd (fst r), snd r)
         = bind_views catalog insert_ctx tid n dependencies s
     | Some _ =>
         (current_thread (snd r) = current_thread s
          /\ (snd (fst (fst r)) = [] -> binding_fault faults n <> None))
         \/ (exists slot,
               left_by_destructor env catalog faults
                 n (n + length dependencies) slot
               /\ current_thread (snd r)
                  = assign_slot tid slot (current_thread s))
     end.
Proof.
  revert n s. induction dependencies as [|d rest IH]; intros n s; simpl.
  { split; [done|]. split; [constructor | done]. }
  destruct (binding_fault faults n) as [ex|] eqn:Hbind; simpl.
  { destruct (binding_leaves faults n) as [slot|] eqn:Hleaves.
    - split; [done|]. split; [constructor|]. right. exists slot.
      split; [|done]. exists n. split; [lia|]. right. by rewrite Hbind.
    - split; [done|]. split; [constructor|]. left. by split. }
  destruct (attach_fault faults n) as [ex|] eqn:Hattach; simpl.
  { split; [done|]. split; [constructor|]. right.
    exists (thread_status_dtor env (new_ThreadStatus catalog n)).
    split; [|apply assign_slot_twice]. exists n. split; [lia | by left]. }
  destruct (storage_kind (getTable catalog d));
    match goal with
    | |- context [bind_views_or_throw env catalog faults insert_ctx tid (S n)
                    rest ?s2] =>
        assert (Hslots : current_thread s2 = current_thread s)
          by apply assign_slot_restore;
        destruct (IH (S n) s2) as (Htr & Hmade & Hres);
        destruct (bind_views_or_throw env catalog faults insert_ctx tid (S n)
                    rest s2) as [[[thrown views'] locks'] s3]
    end;
    cbn [fst snd] in *;
    (split; [exact Htr|]);
    (split;
     [constructor;
      [exists n; split; [lia | done]
      | eapply Forall_impl; [exact Hmade|];
        intros v (k & Hk & Hv); exists k; split; [lia | done]]
     |]);
    (destruct thrown as [ex|];
     [destruct Hres as [[Hsame _]|(slot & Hleft & Hslot)];
      [left; split; [by rewrite Hsame | done]
      | right; exists slot; split;
        [eapply left_by_destructor_wider; [| |exact Hleft]; lia
        | by rewrite Hslot, Hslots]]
     | by rewrite <- Hres]).
Qed.

(** X1.  The constructor makes one ThreadStatus per view, which changes
    current_thread, and writes the saved pointer back each time.  When it
    returns, it has made the writer of [construct] and every thread's slot
    holds what it held before.  When it throws before a ThreadStatus is
    destroyed, nothing has changed.  When it throws later, what it has made
    is destroyed without the restore of the destructor's body: the slot of
    the calling thread holds what a destructor has left there, whatever it
    held before. *)
Theorem constructor_restores_current_thread_on_return (catalog : Catalog Query)
    (faults : Faults) (storage_ : Storage Query) (context_ : Settings)
    (no_destination : bool) (tid : ThreadId) (s : World) :
  let dependencies := getDependencies catalog (storage_id storage_) in
  let r := construct_or_throw env catalog faults storage_ context_
             no_destination tid s in
  trace (snd r) = trace s
  /\ match fst r with
     | inr w =>
         (w, snd r) = construct catalog storage_ context_ no_destination tid s
         /\ current_thread (snd r) = current_thread s
     | inl _ =>
         if nothing_destroyed faults dependencies
         then snd r = s
         else exists slot,
                left_by_destructor env catalog faults
                  0 (length dependencies) slot
                /\ current_thread (snd r)
                   = assign_slot tid slot (current_thread s)
     end.
Proof.
  intros dependencies r. subst r.
  unfold construct_or_throw, construct, nothing_destroyed.
  fold dependencies.
  destruct (entry_fault faults) as [ex|]; [done|].
  set (insert_ctx :=
         make_insert_context context_
           (if negb (deduplicate_blocks_in_dependent_materialized_views context_)
            then negb no_destination && supportsDeduplication storage_
            else false)).
  destruct dependencies as [|d ds] eqn:Hdeps.
  { simpl. by destruct (if no_destination then None else _). }
  destruct (binding_fault faults 0) as [ex|] eqn:Hbind.
  { simpl. rewrite Hbind.
    destruct (binding_leaves faults 0) as [slot|] eqn:Hleaves; [|done].
    simpl. split; [done|]. exists slot. split; [|done].
    exists 0%nat. split; [lia|]. right. by rewrite Hbind. }
  cbv iota.
  destruct (bind_views_or_throw_spec catalog faults insert_ctx tid 0
              (d :: ds) s) as (Htr & Hmade & Hres).
  pose proof (bind_views_current_thread catalog insert_ctx tid 0 (d :: ds) s)
    as Hbound.
  destruct (bind_views_or_throw env catalog faults insert_ctx tid 0
              (d :: ds) s) as [[[thrown made] locks] s'].
  cbn [fst snd] in *.
  assert (Hleft : made <> [] ->
            current_thread s' = current_thread s
            \/ (exists p, current_thread s'
                          = assign_slot tid p (current_thread s)) ->
            exists slot,
              left_by_destructor env catalog faults 0 (length (d :: ds)) slot
              /\ current_thread (views_clear env made tid s')
                 = assign_slot tid slot (current_thread s)).
  { intros Hne Hslots.
    destruct (views_clear_nonempty made tid s' Hne) as (view & Hin & Hslot).
    rewrite List.Forall_forall in Hmade.
    destruct (Hmade view Hin) as (k & Hk & Hview).
    exists (thread_status_dtor env (new_ThreadStatus catalog k)). split.
    - exists k. split; [lia | by left].
    - rewrite Hslot, Hview.
      destruct Hslots as [-> | [p ->]]; [done | apply assign_slot_twice]. }
  destruct thrown as [ex|].
  - cbn [fst snd]. split; [by rewrite views_clear_trace|].
    destruct made as [|v rest].
    + destruct Hres as [[_ Hcontra]|(slot & Hl & Hslot)];
        [by destruct Hcontra|].
      exists slot. by split.
    + apply Hleft; [done|].
      destruct Hres as [[Hsame _]|(slot & _ & Hslot)]; [by left | right; eauto].
  - rewrite <- Hres in Hbound. cbn [snd] in Hbound.
    destruct (if no_destination then None else destination_fault faults)
      as [ex|]; cbn [fst snd].
    + split; [by rewrite views_clear_trace|].
      apply Hleft; [|by left].
      intros ->. simpl in Hres.
      destruct (storage_kind (getTable catalog d));
        destruct (bind_views catalog insert_ctx tid 1 ds _) as [[? ?] ?];
        discriminate Hres.
    + split; [done|]. split; [|done].
      fold insert_ctx. by rewrite <- Hres.
Qed.

Lemma bind_views_spec (catalog : Catalog Query) insert_ctx tid n
    dependencies (s : World) :
  let r := bind_views catalog insert_ctx tid n dependencies s in
  map table_id (fst (fst r)) = dependencies
  /\ map (fun view => thread_status (runtime_stats view)) (fst (fst r))
     = map (new_ThreadStatus catalog) (seq n (length dependencies))
  /\ Forall freshly_bound (fst (fst r))
  /\ Forall (bound_as catalog insert_ctx) (fst (fst r))
  /\ snd (fst r)
     = List.filter (fun d => is_materialized_view (getTable catalog d))
         dependencies.
Proof.
  revert n s. induction dependencies as [|d rest IH]; intros n s.
  { simpl. repeat split; constructor. }
  cbn [bind_views].
  destruct (storage_kind (getTable catalog d)) as [inner q|q|] eqn:Hkind;
    match goal with
    | |- context [bind_views catalog insert_ctx tid (S n) rest ?s2] =>
        specialize (IH (S n) s2);
        destruct (bind_views catalog insert_ctx tid (S n) rest s2)
          as [[views' locks'] s3]
    end;
    cbn [fst snd] in *; destruct IH as (Hids & Hts & Hfresh & Hbound & Hlocks);
    (split; [cbn; by rewrite Hids|]);
    (split; [cbn; by rewrite Hts|]);
    (split; [constructor; [by repeat split | done]|]);
    (split; [constructor; [unfold bound_as; cbn; rewrite Hkind; by repeat split
                          | done]|]);
    cbn; unfold is_materialized_view at 1; rewrite Hkind; cbn; by rewrite Hlocks.
Qed.

(** X2.  The constructor makes one view record per dependency, in the order
    the catalog lists them.  Each starts with no exception, status INIT,
    no elapsed time and a ThreadStatus of its own (the n-th one made). *)
Theorem constructor_views_follow_catalog (catalog : Catalog Query)
    (storage_ : Storage Query) (context_ : Settings) (no_destination : bool)
    (tid : ThreadId) (s : World) :
  let w := fst (construct catalog storage_ context_ no_destination tid s) in
  let dependencies := getDependencies catalog (storage_id storage_) in
  map table_id (views w) = dependencies
  /\ Forall freshly_bound (views w)
  /\ map (fun view => thread_status (runtime_stats view)) (views w)
     = map (new_ThreadStatus catalog) (seq 0 (length dependencies)).
Proof.
  unfold construct.
  destruct (getDependencies catalog (storage_id storage_)) as [|d ds] eqn:Hdeps.
  { simpl. repeat split; constructor. }
  match goal with
  | |- context [bind_views catalog ?ic tid 0 (d :: ds) s] =>
      pose proof (bind_views_spec catalog ic tid 0 (d :: ds) s) as H;
      destruct (bind_views catalog ic tid 0 (d :: ds) s) as [[vs locks] s']
  end.
  cbn [fst snd views] in *. destruct H as (Hids & Hts & Hfresh & _ & _).
  done.
Qed.

(** X3.  Every view record is bound by the kind of its dependency, and every
    downstream sink is made with the writer's insert context: a
    materialized view gets its inner query and an insert into its target
    table (columns: those of the select header the target physically has),
    a live view gets its inner query and a nested writer without
    destination, any other dependent gets no query and a nested writer with
    destination.  Without an insert context there is no view record. *)
Theorem constructor_binds_views_by_kind (catalog : Catalog Query)
    (storage_ : Storage Query) (context_ : Settings) (no_destination : bool)
    (tid : ThreadId) (s : World) :
  let w := fst (construct catalog storage_ context_ no_destination tid s) in
  match insert_context w with
  | Some insert_ctx => Forall (bound_as catalog insert_ctx) (views w)
  | None => views w = []
  end.
Proof.
  unfold construct.
  destruct (getDependencies catalog (storage_id storage_)) as [|d ds] eqn:Hdeps;
    [done|].
  match goal with
  | |- context [bind_views catalog ?ic tid 0 (d :: ds) s] =>
      pose proof (bind_views_spec catalog ic tid 0 (d :: ds) s) as H;
      destruct (bind_views catalog ic tid 0 (d :: ds) s) as [[vs locks] s']
  end.
  cbn [fst snd views insert_context fmap option_fmap option_map] in *.
  by destruct H as (_ & _ & _ & Hbound & _).
Qed.

(** X4.  The writer holds a share lock on its own storage and one on every
    dependent that is a materialized view, in catalog order; it takes none
    on live views or other dependents. *)
Theorem constructor_table_locks (catalog : Catalog Query)
    (storage_ : Storage Query) (context_ : Settings) (no_destination : bool)
    (tid : ThreadId) (s : World) :
  table_locks (fst (construct catalog storage_ context_ no_destination tid s))
  = storage_id storage_
    :: List.filter (fun d => is_materialized_view (getTable catalog d))
         (getDependencies catalog (storage_id storage_)).
Proof.
  unfold construct.
  destruct (getDependencies catalog (storage_id storage_)) as [|d ds] eqn:Hdeps;
    [done|].
  match goal with
  | |- context [bind_views catalog ?ic tid 0 (d :: ds) s] =>
      pose proof (bind_views_spec catalog ic tid 0 (d :: ds) s) as H;
      destruct (bind_views catalog ic tid 0 (d :: ds) s) as [[vs locks] s']
  end.
  cbn [fst snd table_locks] in *.
  destruct H as (_ & _ & _ & _ & Hlocks). by rewrite Hlocks.
Qed.

(** *** What the methods do to the view records *)

Lemma Forall2_refl_list {A} (R : A -> A -> Prop) (l : list A) :
  (forall x, R x x) -> Forall2 R l l.
Proof. intros HR. induction l; by constructor. Qed.

Lemma run_sequentially_Forall2
    (stage : ViewInfo -> World -> ViewInfo * World)
    (R : ViewInfo -> ViewInfo -> Prop) vs (s : World) :
  (forall view, R view view) ->
  (forall view s0, R view (fst (stage view s0))) ->
  Forall2 R vs (fst (fst (run_sequentially stage vs s))).
Proof.
  intros Hrefl Hstage. revert s.
  induction vs as [|view rest IH]; intros s; simpl; [constructor|].
  specialize (Hstage view s).
  destruct (stage view s) as [view' s1]. simpl in Hstage.
  destruct (exception view'); simpl.
  - constructor; [done|]. by apply Forall2_refl_list.
  - specialize (IH s1).
    destruct (run_sequentially stage rest s1) as [[rest' s2] f].
    by constructor.
Qed.

Lemma run_in_pool_Forall2
    (stage : ThreadId -> ViewInfo -> World -> ViewInfo * World)
    (R : ViewInfo -> ViewInfo -> Prop) job vs count (s : World) :
  (forall view, R view view) ->
  (forall t view s0, R view (fst (stage t view s0))) ->
  Forall2 R vs (fst (fst (run_in_pool env stage job vs count s))).
Proof.
  intros Hrefl Hstage. revert job count s.
  induction vs as [|view rest IH]; intros job count s; simpl; [constructor|].
  destruct (negb _).
  - specialize (IH (S job) count s).
    destruct (run_in_pool env stage (S job) rest count s) as [[rest' s1] c].
    by constructor.
  - specialize (Hstage (pool_worker env (trace s) job) view s).
    destruct (stage _ view s) as [view' s1]. simpl in Hstage.
    match goal with
    | |- context [run_in_pool env stage (S job) rest ?c s1] =>
        specialize (IH (S job) c s1);
        destruct (run_in_pool env stage (S job) rest c s1) as [[rest' s2] c']
    end.
    by constructor.
Qed.

Lemma fan_out_Forall2 (w : Writer) tid
    (stage : ThreadId -> ViewInfo -> World -> ViewInfo * World)
    (R : ViewInfo -> ViewInfo -> Prop) (s : World) :
  (forall view, R view view) ->
  (forall t view s0, R view (fst (stage t view s0))) ->
  Forall2 R (views w) (fst (fst (fan_out env w tid stage s))).
Proof.
  intros Hrefl Hstage. unfold fan_out. destruct (1 <? pool_size w).
  - pose proof (run_in_pool_Forall2 stage R 0 (views w) 0 s Hrefl Hstage) as H.
    by destruct (run_in_pool env stage 0 (views w) 0 s) as [[vs' s'] c].
  - apply run_sequentially_Forall2; auto.
Qed.

(** A relation between a view before and after a stage that holds for every
    stage and for a view left alone holds between the view records before
    and after every method. *)
Lemma methods_relate_views (R : ViewInfo -> ViewInfo -> Prop)
    (w : Writer) tid handled block (s : World) :
  (forall view, R view view) ->
  (forall t text st body view s0,
      R view (fst (run_stage env t text st body view s0))) ->
  Forall2 R (views w) (views (snd (fst (writePrefix env w tid handled s))))
  /\ Forall2 R (views w) (views (snd (fst (write env w tid block s))))
  /\ Forall2 R (views w) (views (snd (fst (writeSuffix env w tid s)))).
Proof.
  intros Hrefl Hstage.
  pose proof (Forall2_refl_list R (views w) Hrefl) as Hsame.
  split; [|split].
  - unfold writePrefix.
    destruct (if output w then _ else _) as [[ex|] s1]; [done|].
    pose proof (run_sequentially_Forall2 (process_prefix env tid) R (views w) s1
                  Hrefl (fun view s0 => Hstage _ _ _ _ view s0)) as H.
    destruct (run_sequentially _ (views w) s1) as [[vs' s2] failed].
    by destruct failed.
  - remember (views w) as vs0 eqn:Hvs0.
    unfold write. destruct (validateArraySizes env block); [by subst|].
    destruct (write_to_destination env w block s) as [[|ex|] s1];
      [|by subst|by subst].
    unfold push_to_views. destruct (views w) as [|v vs] eqn:Hviews.
    { simpl. by rewrite Hviews, <- Hvs0. }
    destruct (_ && _); [simpl; by rewrite Hviews, <- Hvs0|].
    pose proof (fan_out_Forall2 w tid (fun t => process env w t block) R s1
                  Hrefl (fun t view s0 => Hstage _ _ _ _ view s0)) as H.
    rewrite Hviews, <- Hvs0 in H.
    destruct (fan_out env w tid _ s1) as [[vs' s2] happened].
    destruct happened; [|done].
    by destruct (check_exceptions_in_views env (set_views vs' w) s2).
  - remember (views w) as vs0 eqn:Hvs0.
    unfold writeSuffix.
    destruct (if output w then _ else _) as [[ex|] s1]; [by subst|].
    destruct (views w) as [|v vs] eqn:Hviews.
    { simpl. by rewrite Hviews, <- Hvs0. }
    pose proof (fan_out_Forall2 w tid (process_suffix env) R s1
                  Hrefl (fun t view s0 => Hstage _ _ _ _ view s0)) as H.
    rewrite Hviews, <- Hvs0 in H.
    destruct (fan_out env w tid _ s1) as [[vs' s2] happened].
    by destruct (if happened then _ else _) as [[|ex|] s3].
Qed.

Lemma methods_keep_members (w : Writer) tid handled block (s : World) :
  same_members w (snd (fst (writePrefix env w tid handled s)))
  /\ same_members w (snd (fst (write env w tid block s)))
  /\ same_members w (snd (fst (writeSuffix env w tid s))).
Proof.
  assert (Hw : same_members w w) by (by repeat split).
  assert (Hset : forall vs, same_members w (set_views vs w))
    by (by repeat split).
  split; [|split].
  - unfold writePrefix.
    destruct (if output w then _ else _) as [[ex|] s1]; [done|].
    destruct (run_sequentially _ (views w) s1) as [[vs' s2] failed].
    destruct failed; apply Hset.
  - unfold write. destruct (validateArraySizes env block); [done|].
    destruct (write_to_destination env w block s) as [[|ex|] s1]; [|done|done].
    unfold push_to_views. destruct (views w) as [|v vs]; [done|].
    destruct (_ && _); [done|].
    destruct (fan_out env w tid _ s1) as [[vs' s2] happened].
    destruct happened; [|apply Hset].
    destruct (check_exceptions_in_views env (set_views vs' w) s2). apply Hset.
  - unfold writeSuffix.
    destruct (if output w then _ else _) as [[ex|] s1]; [done|].
    destruct (views w) as [|v vs]; [done|].
    destruct (fan_out env w tid _ s1) as [[vs' s2] happened].
    destruct (if happened then _ else _) as [[|ex|] s3]; apply Hset.
Qed.

(** X5.  No method adds, drops or reorders view records, and no stage
    changes what identifies a view: writePrefix, write and writeSuffix leave
    each record's query, table_id, sink, target name, type and ThreadStatus
    as they were, in both scheduling modes and on every exit path; the other
    members of the writer are not changed either. *)
Theorem methods_keep_view_identity (w : Writer) (tid : ThreadId)
    (handled : option Exception) (block : Block) (s : World) :
  (Forall2 same_identity (views w)
     (views (snd (fst (writePrefix env w tid handled s))))
   /\ same_members w (snd (fst (writePrefix env w tid handled s))))
  /\ (Forall2 same_identity (views w)
        (views (snd (fst (write env w tid block s))))
      /\ same_members w (snd (fst (write env w tid block s))))
  /\ (Forall2 same_identity (views w)
        (views (snd (fst (writeSuffix env w tid s))))
      /\ same_members w (snd (fst (writeSuffix env w tid s)))).
Proof.
  destruct (methods_keep_members w tid handled block s) as (Hp & Hw & Hs).
  destruct (methods_relate_views same_identity w tid handled block s)
    as (Rp & Rw & Rs); [| |done].
  - intros view. by repeat split.
  - intros t text st body view s0. unfold run_stage.
    destruct (body _) as [[ex|] s2]; simpl; [|by repeat split].
    unfold capture. destruct (ex_class ex); by repeat split.
Qed.

(** X6.  Once a view record holds a captured exception, nothing the writer
    does takes it away: after writePrefix, write or writeSuffix the record
    still holds one, whether its stage ran again or not and whether it
    succeeded or not. *)
Theorem captured_exception_never_cleared (w : Writer) (tid : ThreadId)
    (handled : option Exception) (block : Block) (s : World) :
  Forall2 keeps_exception (views w)
    (views (snd (fst (writePrefix env w tid handled s))))
  /\ Forall2 keeps_exception (views w)
       (views (snd (fst (write env w tid block s))))
  /\ Forall2 keeps_exception (views w)
       (views (snd (fst (writeSuffix env w tid s)))).
Proof.
  apply methods_relate_views.
  - intros view Hfailed. exact Hfailed.
  - intros t text st body view s0 Hfailed.
    by apply run_stage_keeps_exception.
Qed.

(** X7.  The writer records no failed status.  A view that held no
    exception before a method and holds one after it has the status it had
    before: the status is set only when the stage body returns. *)
Theorem failed_stage_keeps_status (w : Writer) (tid : ThreadId)
    (handled : option Exception) (block : Block) (s : World) :
  Forall2 failure_keeps_status (views w)
    (views (snd (fst (writePrefix env w tid handled s))))
  /\ Forall2 failure_keeps_status (views w)
       (views (snd (fst (write env w tid block s))))
  /\ Forall2 failure_keeps_status (views w)
       (views (snd (fst (writeSuffix env w tid s)))).
Proof.
  apply methods_relate_views.
  - intros view _ _. reflexivity.
  - intros t text st body view s0 Hfresh. unfold view_failed, run_stage.
    destruct (body _) as [[ex|] s2]; simpl.
    + intros _. unfold capture. by destruct (ex_class ex).
    + by rewrite Hfresh.
Qed.

(** *** The calls a method makes *)

Lemma extends_by_refl P (s : World) : extends_by P s s.
Proof. exists []. by rewrite app_nil_r. Qed.

Lemma extends_by_trans P (s1 s2 s3 : World) :
  extends_by P s1 s2 -> extends_by P s2 s3 -> extends_by P s1 s3.
Proof.
  intros (e1 & H1 & F1) (e2 & H2 & F2). exists (e1 ++ e2). split.
  - by rewrite H2, H1, app_assoc.
  - rewrite forallb_app. by rewrite F1, F2.
Qed.

Lemma extends_by_emit (P : Event -> bool) ev (s : World) :
  P ev = true -> extends_by P s (emit ev s).
Proof. intros H. exists [ev]. simpl. by rewrite H. Qed.

Lemma extends_by_slot P tid p (s s' : World) :
  extends_by P s s' -> extends_by P s (set_current_thread tid p s').
Proof. intros (evs & H & F). by exists evs. Qed.

Lemma extends_by_from_slot P tid p (s s' : World) :
  extends_by P s s' -> extends_by P (set_current_thread tid p s) s'.
Proof. intros (evs & H & F). by exists evs. Qed.

Lemma write_blocks_extends (P : Event -> bool) (view : ViewInfo) blocks (s : World) :
  (forall b, P (ViewOutWrite (table_id view) b) = true) ->
  extends_by P s (snd (write_blocks env view blocks s)).
Proof.
  intros HP. revert s. induction blocks as [|b rest IH]; intros s; simpl.
  - apply extends_by_refl.
  - destruct (block_has_columns env b); [|apply extends_by_refl].
    destruct (validateArraySizes env b); [apply extends_by_refl|].
    destruct (answer env (trace s) _); simpl.
    + by apply extends_by_emit.
    + eapply extends_by_trans; [by apply extends_by_emit | apply IH].
Qed.

Lemma process_body_extends (P : Event -> bool) (w : Writer) block
    (view : ViewInfo) (s : World) :
  (forall b, P (ViewOutWrite (table_id view) b) = true) ->
  extends_by P s (snd (process_body env w block view s)).
Proof.
  intros HP. unfold process_body.
  destruct (match query view with Some _ => _ | None => _ end) as [blocks failure].
  pose proof (write_blocks_extends P view blocks s HP) as H.
  by destruct (write_blocks env view blocks s) as [[ex|] s'].
Qed.

Lemma run_stage_extends (P : Event -> bool) tid text st body
    (view : ViewInfo) (s : World) :
  (forall ts, P (SetLastRusage ts) = true) ->
  (forall ts, P (UpdatePerformanceCounters ts) = true) ->
  (forall s0, extends_by P s0 (snd (body s0))) ->
  extends_by P s (snd (run_stage env tid text st body view s)).
Proof.
  intros Hr Hu Hbody. unfold run_stage.
  specialize (Hbody (emit (SetLastRusage (thread_status (runtime_stats view)))
                       (set_current_thread tid
                          (Some (thread_status (runtime_stats view))) s))).
  destruct (body _) as [thrown s2]. cbn [snd] in *.
  destruct Hbody as (evs & Htr & Hevs).
  exists (SetLastRusage (thread_status (runtime_stats view))
            :: evs ++ [UpdatePerformanceCounters
                         (thread_status (runtime_stats view))]).
  split.
  - cbn. rewrite Htr. cbn. by rewrite <- !app_assoc.
  - cbn. rewrite Hr, forallb_app, Hevs. cbn. by rewrite Hu.
Qed.

Lemma run_sequentially_extends (P : Event -> bool)
    (stage : ViewInfo -> World -> ViewInfo * World) vs (s : World) :
  (forall view s0, extends_by P s0 (snd (stage view s0))) ->
  extends_by P s (snd (fst (run_sequentially stage vs s))).
Proof.
  intros Hstage. revert s. induction vs as [|view rest IH]; intros s; simpl.
  - apply extends_by_refl.
  - specialize (Hstage view s) as H1.
    destruct (stage view s) as [view' s1]. cbn [snd] in H1.
    destruct (exception view'); [exact H1|].
    specialize (IH s1).
    destruct (run_sequentially stage rest s1) as [[rest' s2] f].
    by eapply extends_by_trans.
Qed.

Lemma run_in_pool_extends (P : Event -> bool)
    (stage : ThreadId -> ViewInfo -> World -> ViewInfo * World)
    job vs count (s : World) :
  (forall t view s0, extends_by P s0 (snd (stage t view s0))) ->
  extends_by P s (snd (fst (run_in_pool env stage job vs count s))).
Proof.
  intros Hstage. revert job count s.
  induction vs as [|view rest IH]; intros job count s; simpl.
  - apply extends_by_refl.
  - destruct (negb _).
    + specialize (IH (S job) count s).
      by destruct (run_in_pool env stage (S job) rest count s) as [[rest' s1] c].
    + specialize (Hstage (pool_worker env (trace s) job) view s) as H1.
      destruct (stage _ view s) as [view' s1]. cbn [snd] in H1.
      match goal with
      | |- context [run_in_pool env stage (S job) rest ?c s1] =>
          specialize (IH (S job) c s1);
          destruct (run_in_pool env stage (S job) rest c s1) as [[rest' s2] c']
      end.
      by eapply extends_by_trans.
Qed.

Lemma fan_out_extends (P : Event -> bool) (w : Writer) tid
    (stage : ThreadId -> ViewInfo -> World -> ViewInfo * World) (s : World) :
  (forall t view s0, extends_by P s0 (snd (stage t view s0))) ->
  extends_by P s (snd (fst (fan_out env w tid stage s))).
Proof.
  intros Hstage. unfold fan_out. destruct (1 <? pool_size w).
  - pose proof (run_in_pool_extends P stage 0 (views w) 0 s Hstage) as H.
    by destruct (run_in_pool env stage 0 (views w) 0 s) as [[vs' s'] c].
  - apply run_sequentially_extends. intros view s0. apply Hstage.
Qed.

Lemma log_query_views_extends (P : Event -> bool) (w : Writer) (s : World) :
  (forall view, P (LogToQueryViewsLog view) = true) ->
  extends_by P s (log_query_views env w s).
Proof.
  intros HP. exists (map LogToQueryViewsLog (logged_views w)). split.
  - apply log_query_views_trace.
  - apply forallb_forall. intros ev Hin. apply in_map_iff in Hin as (v & <- & _).
    apply HP.
Qed.

Lemma check_exceptions_extends (P : Event -> bool) (w : Writer) (s : World) :
  (forall view, P (LogToQueryViewsLog view) = true) ->
  extends_by P s (snd (check_exceptions_in_views env w s)).
Proof.
  intros HP. unfold check_exceptions_in_views.
  induction (views w) as [|view rest IH]; simpl; [apply extends_by_refl|].
  destruct (exception view); [by apply log_query_views_extends | exact IH].
Qed.

(** check_exceptions_in_views returns only when it has done nothing. *)
Lemma check_exceptions_returned (w : Writer) (s s' : World) :
  check_exceptions_in_views env w s = (Returned, s') -> s' = s.
Proof.
  unfold check_exceptions_in_views.
  induction (views w) as [|view rest IH]; simpl; [by intros [= <-]|].
  destruct (exception view); [done | exact IH].
Qed.

Lemma process_extends (P : Event -> bool) (w : Writer) tid block
    (view : ViewInfo) (s : World) :
  (forall ts, P (SetLastRusage ts) = true) ->
  (forall ts, P (UpdatePerformanceCounters ts) = true) ->
  (forall id b, P (ViewOutWrite id b) = true) ->
  extends_by P s (snd (process env w tid block view s)).
Proof.
  intros Hr Hu Hw. apply run_stage_extends; [done|done|].
  intros s0. by apply process_body_extends.
Qed.

Lemma invoke_extends (P : Event -> bool) ev (s : World) :
  P ev = true -> extends_by P s (snd (invoke env ev s)).
Proof. apply extends_by_emit. Qed.

Lemma optional_invoke_extends (P : Event -> bool) (present : bool) ev (s : World) :
  P ev = true ->
  extends_by P s (snd (if present then invoke env ev s else (None, s))).
Proof.
  intros H. destruct present; [by apply invoke_extends | apply extends_by_refl].
Qed.

Lemma flush_views_extends (P : Event -> bool) (vs : list ViewInfo) (s : World) :
  (forall id, P (ViewOutFlush id) = true) ->
  extends_by P s (snd (flush_views env vs s)).
Proof.
  intros HP. revert s. induction vs as [|view rest IH]; intros s; simpl.
  - apply extends_by_refl.
  - destruct (answer env (trace s) _); simpl.
    + by apply extends_by_emit.
    + apply (extends_by_trans _ _ (emit (ViewOutFlush (table_id view)) s));
        [by apply extends_by_emit | apply IH].
Qed.


(** X8.  No method makes a call of another phase on a sink.  writePrefix
    never calls write (nor the live view's write path), writeSuffix or
    flush; write never calls writePrefix, writeSuffix or flush; writeSuffix
    never calls writePrefix, write or flush; flush never calls writePrefix,
    write or writeSuffix, and it touches neither the accounting of a view's
    ThreadStatus nor the query-views log. *)
Theorem methods_never_call_another_phase (w : Writer) (tid : ThreadId)
    (handled : option Exception) (block : Block) (s : World) :
  extends_by
    (fun ev => negb (is_write_call ev || is_suffix_call ev || is_flush_call ev))
    s (snd (writePrefix env w tid handled s))
  /\ extends_by
       (fun ev => negb (is_prefix_call ev || is_suffix_call ev || is_flush_call ev))
       s (snd (write env w tid block s))
  /\ extends_by
       (fun ev => negb (is_prefix_call ev || is_write_call ev || is_flush_call ev))
       s (snd (writeSuffix env w tid s))
  /\ extends_by
       (fun ev => negb (is_prefix_call ev || is_write_call ev || is_suffix_call ev
                        || is_accounting ev || is_log ev))
       s (snd (flush env w s)).
Proof.
  set (prefix_phase := fun ev : Event =>
         negb (is_write_call ev || is_suffix_call ev || is_flush_call ev)).
  set (write_phase := fun ev : Event =>
         negb (is_prefix_call ev || is_suffix_call ev || is_flush_call ev)).
  set (suffix_phase := fun ev : Event =>
         negb (is_prefix_call ev || is_write_call ev || is_flush_call ev)).
  set (flush_phase := fun ev : Event =>
         negb (is_prefix_call ev || is_write_call ev || is_suffix_call ev
               || is_accounting ev || is_log ev)).
  split; [|split; [|split]].
  - unfold writePrefix.
    pose proof (optional_invoke_extends prefix_phase (output w)
                  OutputWritePrefix s eq_refl) as H1.
    destruct (if output w then _ else _) as [[ex|] s1]; [exact H1|].
    cbn [snd] in H1.
    pose proof (run_sequentially_extends prefix_phase (process_prefix env tid)
                  (views w) s1) as H2.
    destruct (run_sequentially _ (views w) s1) as [[vs' s2] failed].
    cbn [fst snd] in H2.
    assert (H12 : extends_by prefix_phase s s2).
    { eapply extends_by_trans; [exact H1|]. apply H2. intros view s0.
      apply run_stage_extends; [done|done|]. intros s3.
      by apply invoke_extends. }
    destruct failed; [|exact H12].
    eapply extends_by_trans; [exact H12|]. by apply log_query_views_extends.
  - unfold write. destruct (validateArraySizes env block);
      [apply extends_by_refl|].
    assert (H1 : extends_by write_phase s
                   (snd (write_to_destination env w block s))).
    { unfold write_to_destination. destruct (is_live_view (storage w)).
      - by apply extends_by_emit.
      - destruct (output w); [by apply extends_by_emit | apply extends_by_refl]. }
    destruct (write_to_destination env w block s) as [[|ex|] s1];
      [|exact H1|exact H1].
    cbn [snd] in H1. eapply extends_by_trans; [exact H1|].
    unfold push_to_views. destruct (views w) as [|v vs] eqn:Hviews;
      [apply extends_by_refl|].
    destruct (_ && _); [apply extends_by_refl|].
    pose proof (fan_out_extends write_phase w tid
                  (fun t => process env w t block) s1) as H2.
    destruct (fan_out env w tid _ s1) as [[vs' s2] happened].
    cbn [fst snd] in H2.
    assert (H12 : extends_by write_phase s1 s2).
    { apply H2. intros t view s0. by apply process_extends. }
    destruct happened; [|exact H12].
    pose proof (check_exceptions_extends write_phase (set_views vs' w) s2
                  (fun _ => eq_refl)) as H3.
    destruct (check_exceptions_in_views env (set_views vs' w) s2) as [o s3].
    by eapply extends_by_trans.
  - unfold writeSuffix.
    pose proof (optional_invoke_extends suffix_phase (output w)
                  OutputWriteSuffix s eq_refl) as H1.
    destruct (if output w then _ else _) as [[ex|] s1]; [exact H1|].
    cbn [snd] in H1.
    destruct (views w) as [|v vs] eqn:Hviews; [exact H1|].
    pose proof (fan_out_extends suffix_phase w tid (process_suffix env) s1) as H2.
    destruct (fan_out env w tid _ s1) as [[vs' s2] happened].
    cbn [fst snd] in H2.
    assert (H12 : extends_by suffix_phase s s2).
    { eapply extends_by_trans; [exact H1|]. apply H2. intros t view s0.
      apply run_stage_extends; [done|done|]. intros s3.
      by apply invoke_extends. }
    assert (H3 : extends_by suffix_phase s2
                   (snd (if happened
                         then check_exceptions_in_views env (set_views vs' w) s2
                         else (Returned, s2)))).
    { destruct happened; [|apply extends_by_refl].
      by apply check_exceptions_extends. }
    destruct (if happened then _ else _) as [[|ex|] s3]; cbn [snd] in *.
    + eapply extends_by_trans; [exact H12|].
      eapply extends_by_trans; [exact H3|]. by apply log_query_views_extends.
    + by eapply extends_by_trans.
    + by eapply extends_by_trans.
  - unfold flush.
    pose proof (optional_invoke_extends flush_phase (output w)
                  OutputFlush s eq_refl) as H1.
    destruct (if output w then _ else _) as [[ex|] s1]; [exact H1|].
    cbn [snd] in H1. eapply extends_by_trans; [exact H1|].
    by apply flush_views_extends.
Qed.

(** X9.  write writes telemetry only on its way out with a view's
    exception: when write returns, it has written no record to the
    query-views log. *)
Theorem returning_write_logs_nothing (w : Writer) (tid : ThreadId)
    (block : Block) (s : World) :
  fst (fst (write env w tid block s)) = Returned ->
  extends_by (fun ev => negb (is_log ev)) s (snd (write env w tid block s)).
Proof.
  unfold write. destruct (validateArraySizes env block); [done|].
  assert (H1 : extends_by (fun ev => negb (is_log ev)) s
                 (snd (write_to_destination env w block s))).
  { unfold write_to_destination. destruct (is_live_view (storage w)).
    - by apply extends_by_emit.
    - destruct (output w); [by apply extends_by_emit | apply extends_by_refl]. }
  destruct (write_to_destination env w block s) as [[|ex|] s1]; [|done|done].
  cbn [snd] in H1. intros Hret.
  eapply extends_by_trans; [exact H1|]. revert Hret.
  unfold push_to_views. destruct (views w) as [|v vs] eqn:Hviews;
    [intros _; apply extends_by_refl|].
  destruct (_ && _); [intros _; apply extends_by_refl|].
  pose proof (fan_out_extends (fun ev => negb (is_log ev)) w tid
                (fun t => process env w t block) s1) as H2.
  destruct (fan_out env w tid _ s1) as [[vs' s2] happened].
  cbn [fst snd] in H2.
  assert (H12 : extends_by (fun ev => negb (is_log ev)) s1 s2).
  { apply H2. intros t view s0. by apply process_extends. }
  destruct happened; [|intros _; exact H12].
  destruct (check_exceptions_in_views env (set_views vs' w) s2) as [o s3] eqn:Hc.
  cbn. intros ->. apply check_exceptions_returned in Hc. by subst.
Qed.

(** *** The block stage *)


(** X11.  A view without a query gets the inserted block as it is: the only
    call its block stage makes on its sink is one write of that block.  A
    block without columns is not forwarded at all, and the stage succeeds
    all the same. *)
Theorem view_without_query_gets_the_block (w : Writer) (tid : ThreadId)
    (block : Block) (view : ViewInfo) (s : World) :
  query view = None ->
  validateArraySizes env block = None ->
  let ts := thread_status (runtime_stats view) in
  trace (snd (process env w tid block view s))
  = trace s
    ++ [SetLastRusage ts]
    ++ (if block_has_columns env block
        then [ViewOutWrite (table_id view) block] else [])
    ++ [UpdatePerformanceCounters ts]
  /\ (block_has_columns env block = false ->
      exception (fst (process env w tid block view s)) = exception view
      /\ status (runtime_stats (fst (process env w tid block view s)))
         = WRITTEN_BLOCK).
Proof.
  intros Hquery Hvalid ts. unfold process. split.
  - rewrite run_stage_trace. unfold process_body. rewrite Hquery.
    simpl. destruct (block_has_columns env block) eqn:Hcolumns; simpl.
    + rewrite Hvalid. destruct (answer env _ _); simpl;
        by rewrite <- !app_assoc.
    + by rewrite <- !app_assoc.
  - intros Hempty. unfold run_stage, process_body.
    rewrite Hquery. simpl. by rewrite Hempty.
Qed.

(** *** The thread that runs a stage *)

Lemma world_eq (a b : World) :
  current_thread a = current_thread b -> trace a = trace b -> a = b.
Proof. destruct a, b. simpl. by intros -> ->. Qed.

Lemma write_blocks_by_trace (view : ViewInfo) blocks (s s' : World) :
  trace s = trace s' ->
  fst (write_blocks env view blocks s) = fst (write_blocks env view blocks s')
  /\ trace (snd (write_blocks env view blocks s))
     = trace (snd (write_blocks env view blocks s')).
Proof.
  revert s s'. induction blocks as [|b rest IH]; intros s s' Htr; simpl; [done|].
  destruct (block_has_columns env b); [|done].
  destruct (validateArraySizes env b); [done|]. rewrite Htr.
  destruct (answer env (trace s') _); simpl; [by rewrite Htr|].
  apply IH. simpl. by rewrite Htr.
Qed.

Lemma process_body_by_trace (w : Writer) block (view : ViewInfo) (s s' : World) :
  trace s = trace s' ->
  fst (process_body env w block view s) = fst (process_body env w block view s')
  /\ trace (snd (process_body env w block view s))
     = trace (snd (process_body env w block view s')).
Proof.
  intros Htr. unfold process_body.
  destruct (match query view with Some _ => _ | None => _ end) as [blocks failure].
  destruct (write_blocks_by_trace view blocks s s' Htr) as [H1 H2].
  destruct (write_blocks env view blocks s) as [[ex|] s1],
           (write_blocks env view blocks s') as [[ex'|] s1'];
    simpl in *; by simplify_eq.
Qed.

Lemma run_stage_any_thread t t' text st body (view : ViewInfo) (s : World) :
  (forall s0, current_thread (snd (body s0)) = current_thread s0) ->
  (forall s0 s0', trace s0 = trace s0' ->
                  fst (body s0) = fst (body s0')
                  /\ trace (snd (body s0)) = trace (snd (body s0'))) ->
  run_stage env t text st body view s = run_stage env t' text st body view s.
Proof.
  intros Hslots Htrace. unfold run_stage.
  set (ts := thread_status (runtime_stats view)).
  specialize (Htrace (emit (SetLastRusage ts) (set_current_thread t (Some ts) s))
                     (emit (SetLastRusage ts) (set_current_thread t' (Some ts) s))
                     eq_refl) as [Hfst Htr].
  pose proof (Hslots (emit (SetLastRusage ts)
                        (set_current_thread t (Some ts) s))) as Hs.
  pose proof (Hslots (emit (SetLastRusage ts)
                        (set_current_thread t' (Some ts) s))) as Hs'.
  destruct (body (emit (SetLastRusage ts) (set_current_thread t (Some ts) s)))
    as [thrown s2].
  destruct (body (emit (SetLastRusage ts) (set_current_thread t' (Some ts) s)))
    as [thrown' s2'].
  cbn [fst snd] in *. subst thrown'. rewrite Htr. f_equal.
  apply world_eq; cbn [current_thread trace set_current_thread emit];
    [|by rewrite Htr].
  rewrite Hs, Hs'. cbn [current_thread trace set_current_thread emit].
  by rewrite !(assign_slot_restore _ (Some ts)).
Qed.

(** X12.  What a stage does to the view record and to the world does not
    depend on the thread that runs it: the slot it overwrites is the slot it
    restores. *)
Theorem stage_runs_alike_on_any_thread (w : Writer) (t t' : ThreadId)
    (block : Block) (view : ViewInfo) (s : World) :
  process_prefix env t view s = process_prefix env t' view s
  /\ process env w t block view s = process env w t' block view s
  /\ process_suffix env t view s = process_suffix env t' view s.
Proof.
  split; [|split].
  - apply run_stage_any_thread; [done|]. intros s0 s0' Htr. simpl.
    by rewrite Htr.
  - apply run_stage_any_thread.
    + intros s0. apply current_thread_process_body.
    + apply process_body_by_trace.
  - apply run_stage_any_thread; [done|]. intros s0 s0' Htr. simpl.
    by rewrite Htr.
Qed.

(** *** The pool *)

Lemma run_in_pool_stale_count
    (stage : ThreadId -> ViewInfo -> World -> ViewInfo * World)
    job vs count (s : World) :
  (forall tr j, pool_stale_load env tr j = true) ->
  snd (run_in_pool env stage job vs count s) mod 256
  = (count
     + N.of_nat (count_failed (fst (fst (run_in_pool env stage job vs count s)))))
    mod 256.
Proof.
  intros Hstale. revert job count s.
  induction vs as [|view rest IH]; intros job count s; simpl.
  - by rewrite N.add_0_r.
  - rewrite Hstale. simpl.
    destruct (stage _ view s) as [view' s1].
    match goal with
    | |- context [run_in_pool env stage (S job) rest ?c s1] =>
        specialize (IH (S job) c s1);
        destruct (run_in_pool env stage (S job) rest c s1) as [[rest' s2] c']
    end.
    cbn [fst snd] in *. unfold count_failed in *. simpl.
    destruct (exception view'); simpl; [|exact IH].
    rewrite IH, N.Div0.add_mod_idemp_l. f_equal. lia.
Qed.

Lemma run_in_pool_count_bound
    (stage : ThreadId -> ViewInfo -> World -> ViewInfo * World)
    job vs count (s : World) :
  count < 256 -> snd (run_in_pool env stage job vs count s) < 256.
Proof.
  revert job count s.
  induction vs as [|view rest IH]; intros job count s Hlt; simpl; [done|].
  destruct (negb _).
  - specialize (IH (S job) count s Hlt).
    by destruct (run_in_pool env stage (S job) rest count s) as [[rest' s1] c].
  - destruct (stage _ view s) as [view' s1].
    match goal with
    | |- context [run_in_pool env stage (S job) rest ?c s1] =>
        assert (Hc : c < 256)
          by (destruct (exception view'); [by apply N.mod_lt | done]);
        specialize (IH (S job) c s1 Hc);
        destruct (run_in_pool env stage (S job) rest c s1) as [[rest' s2] c']
    end.
    exact IH.
Qed.

(** X14.  exception_count is a std::atomic_uint8_t, so the pool counts the
    failed jobs modulo 256.  When every job has loaded the counter before
    any increment (so that every job runs), exception_happened is set
    exactly when the number of view records that hold an exception is not a
    multiple of 256. *)
Theorem pool_counts_failures_modulo_256 (w : Writer) (tid : ThreadId)
    (stage : ThreadId -> ViewInfo -> World -> ViewInfo * World) (s : World) :
  (1 <? pool_size w) = true ->
  (forall tr j, pool_stale_load env tr j = true) ->
  snd (fan_out env w tid stage s)
  = negb (N.of_nat (count_failed (fst (fst (fan_out env w tid stage s))))
            mod 256 =? 0).
Proof.
  intros Hpool Hstale. unfold fan_out. rewrite Hpool.
  pose proof (run_in_pool_stale_count stage 0 (views w) 0 s Hstale) as Hcount.
  pose proof (run_in_pool_count_bound stage 0 (views w) 0 s eq_refl) as Hlt.
  destruct (run_in_pool env stage 0 (views w) 0 s) as [[vs' s'] c].
  cbn [fst snd] in *. rewrite N.add_0_l in Hcount.
  rewrite <- Hcount. by rewrite N.mod_small.
Qed.

(** *** Telemetry *)

(** X15.  log_query_views writes nothing unless both log_queries and
    log_query_views are on.  When they are, it writes one record per view,
    in view order, for the views whose elapsed_ms is above
    log_queries_min_query_duration_ms, and for every view when that
    threshold is 0.  An exception of the log itself never leaves it, and the
    thread-local slot is not touched. *)
Theorem query_views_log_gating (w : Writer) (s : World) :
  let threshold := log_queries_min_query_duration_ms (context w) in
  trace (log_query_views env w s)
  = trace s
    ++ map LogToQueryViewsLog
         (if log_queries (context w) && log_query_views_enabled (context w)
          then List.filter
                 (fun view => (threshold =? 0)
                              || (threshold <? elapsed_ms (runtime_stats view)))
                 (views w)
          else [])
  /\ current_thread (log_query_views env w s) = current_thread s.
Proof.
  intros threshold. split; [|apply current_thread_log_query_views].
  rewrite log_query_views_trace. unfold logged_views. fold threshold.
  destruct (log_queries (context w)), (log_query_views_enabled (context w));
    simpl; try done.
  do 2 f_equal. apply List.filter_ext. intros view.
  rewrite N.ltb_antisym. by destruct (threshold =? 0), (_ <=? _).
Qed.

(** X16.  When the direct sink's suffix returns and there are views,
    writeSuffix writes the telemetry records exactly once, after the
    fan-out, whether it then returns or rethrows a view's exception: the
    world it leaves is the world after the fan-out with one pass of
    log_query_views over the view records as the fan-out left them. *)
Theorem suffix_logs_views_once (w : Writer) (tid : ThreadId) (s s1 : World) :
  (if output w then invoke env OutputWriteSuffix s else (None, s)) = (None, s1) ->
  views w <> [] ->
  let fanned := fan_out env w tid (process_suffix env) s1 in
  let w' := set_views (fst (fst fanned)) w in
  snd (fst (writeSuffix env w tid s)) = w'
  /\ snd (writeSuffix env w tid s) = log_query_views env w' (snd (fst fanned))
  /\ fst (fst (writeSuffix env w tid s)) <> Terminated.
Proof.
  intros Hout Hviews fanned w'. unfold writeSuffix. rewrite Hout.
  destruct (views w) as [|v vs] eqn:Hvs; [done|].
  subst w' fanned.
  destruct (fan_out env w tid (process_suffix env) s1)
    as [[vs' s2] happened] eqn:Hfan.
  cbn [fst snd]. destruct happened; [|done].
  destruct (first_failed_view vs' (fan_out_failed env _ _ _ _ _ _ Hfan))
    as (pre & view & post & ex & Hsplit & Hpre & Hview).
  by rewrite (check_exceptions_first env (set_views vs' w) pre view post ex s2).
Qed.

(** *** The direct sink *)

(** X17.  A writer without view records only drives its direct sink (or the
    live view's write path): every method makes that one call, if there is a
    direct sink, ends as the call ends, leaves the writer as it was and
    writes no telemetry. *)
Theorem writer_without_views_only_drives_direct_sink (w : Writer)
    (tid : ThreadId) (handled : option Exception) (block : Block) (s : World) :
  views w = [] ->
  let direct ev := if output w then invoke env ev s else (None, s) in
  writePrefix env w tid handled s
  = (outcome_of (fst (direct OutputWritePrefix)), w, snd (direct OutputWritePrefix))
  /\ (validateArraySizes env block = None ->
      write env w tid block s
      = (fst (write_to_destination env w block s), w,
         snd (write_to_destination env w block s)))
  /\ writeSuffix env w tid s
     = (outcome_of (fst (direct OutputWriteSuffix)), w,
        snd (direct OutputWriteSuffix))
  /\ flush env w s
     = (outcome_of (fst (direct OutputFlush)), snd (direct OutputFlush)).
Proof.
  intros Hviews direct. subst direct.
  assert (Hset : set_views [] w = w) by (destruct w; simpl in *; by subst).
  split; [|split; [|split]].
  - unfold writePrefix. rewrite Hviews.
    destruct (output w); simpl; [destruct (answer env _ _)|]; simpl;
      by rewrite ?Hset.
  - intros Hvalid. unfold write. rewrite Hvalid.
    destruct (write_to_destination env w block s) as [[|ex|] s1]; [|done|done].
    unfold push_to_views. by rewrite Hviews.
  - unfold writeSuffix. rewrite Hviews.
    destruct (output w); simpl; [destruct (answer env _ _)|]; done.
  - unfold flush. rewrite Hviews.
    destruct (output w); simpl; [destruct (answer env _ _)|]; done.
Qed.

(** X18.  An exception of the direct sink leaves the method at once: the
    view records are as they were, no view's sink is called and no
    telemetry is written.  This holds for writePrefix, write (on a valid
    block), writeSuffix and flush. *)
Theorem direct_sink_error_skips_views (w : Writer) (tid : ThreadId)
    (handled : option Exception) (block : Block) (s : World) :
  output w = true ->
  is_live_view (storage w) = false ->
  (forall ex,
      answer env (trace s) OutputWritePrefix = Some ex ->
      writePrefix env w tid handled s = (Threw ex, w, emit OutputWritePrefix s))
  /\ (forall ex,
        validateArraySizes env block = None ->
        answer env (trace s) (OutputWrite block) = Some ex ->
        write env w tid block s = (Threw ex, w, emit (OutputWrite block) s))
  /\ (forall ex,
        answer env (trace s) OutputWriteSuffix = Some ex ->
        writeSuffix env w tid s = (Threw ex, w, emit OutputWriteSuffix s))
  /\ (forall ex,
        answer env (trace s) OutputFlush = Some ex ->
        flush env w s = (Threw ex, emit OutputFlush s)).
Proof.
  intros Hout Hlive. split; [|split; [|split]].
  - intros ex Hans. unfold writePrefix, invoke. by rewrite Hout, Hans.
  - intros ex Hvalid Hans.
    unfold write, write_to_destination, invoke.
    by rewrite Hvalid, Hlive, Hout, Hans.
  - intros ex Hans. unfold writeSuffix, invoke. by rewrite Hout, Hans.
  - intros ex Hans. unfold flush, invoke. by rewrite Hout, Hans.
Qed.

(** *** An insert in which nothing throws *)

Lemma run_stage_succeeds tid text st body (view : ViewInfo) (s : World) :
  (forall s0, fst (body s0) = None) ->
  exception view = None ->
  succeeded_with st (fst (run_stage env tid text st body view s)).
Proof.
  intros Hbody Hfresh. unfold run_stage.
  specialize (Hbody (emit (SetLastRusage (thread_status (runtime_stats view)))
                       (set_current_thread tid
                          (Some (thread_status (runtime_stats view))) s))).
  destruct (body _) as [thrown s2]. simpl in Hbody. subst thrown.
  by split.
Qed.

Lemma write_blocks_succeeds (view : ViewInfo) blocks (s : World) :
  (forall tr ev, answer env tr ev = None) ->
  (forall b, validateArraySizes env b = None) ->
  fst (write_blocks env view blocks s) = None.
Proof.
  intros Hans Hvalid. revert s.
  induction blocks as [|b rest IH]; intros s; simpl; [done|].
  destruct (block_has_columns env b); [|done].
  rewrite Hvalid, Hans. apply IH.
Qed.

Lemma process_body_succeeds (w : Writer) block (view : ViewInfo) (s : World) :
  (forall tr ev, answer env tr ev = None) ->
  (forall b, validateArraySizes env b = None) ->
  (forall ctx q b rows bytes sink,
      snd (view_stream env ctx q b rows bytes sink) = None) ->
  fst (process_body env w block view s) = None.
Proof.
  intros Hans Hvalid Hstream. unfold process_body.
  assert (Hfail : snd (match query view with
                       | Some q =>
                           view_stream env (select_context w) q block
                             (min_insert_block_size_rows (context w))
                             (min_insert_block_size_bytes (context w))
                             (out view)
                       | None => ([block], None)
                       end) = None)
    by (destruct (query view); [apply Hstream | done]).
  destruct (match query view with Some _ => _ | None => _ end) as [blocks failure].
  simpl in Hfail. subst failure.
  pose proof (write_blocks_succeeds view blocks s Hans Hvalid) as H.
  by destruct (write_blocks env view blocks s) as [[ex|] s'].
Qed.

Lemma run_sequentially_all_succeed
    (stage : ViewInfo -> World -> ViewInfo * World) st vs (s : World) :
  (forall view s0, exception view = None ->
                   succeeded_with st (fst (stage view s0))) ->
  Forall (fun view => exception view = None) vs ->
  snd (run_sequentially stage vs s) = false
  /\ Forall (succeeded_with st) (fst (fst (run_sequentially stage vs s))).
Proof.
  intros Hstage Hfresh. revert s.
  induction Hfresh as [|view rest Hview Hrest IH]; intros s; simpl.
  { split; constructor. }
  specialize (Hstage view s Hview).
  destruct (stage view s) as [view' s1]. simpl in Hstage.
  destruct Hstage as [Hnone Hst]. rewrite Hnone.
  destruct (IH s1) as [Hf HQ].
  destruct (run_sequentially stage rest s1) as [[rest' s2] f].
  simpl in *. split; [done|]. by constructor.
Qed.

Lemma run_in_pool_all_succeed
    (stage : ThreadId -> ViewInfo -> World -> ViewInfo * World)
    st job vs (s : World) :
  (forall t view s0, exception view = None ->
                     succeeded_with st (fst (stage t view s0))) ->
  Forall (fun view => exception view = None) vs ->
  snd (run_in_pool env stage job vs 0 s) = 0
  /\ Forall (succeeded_with st) (fst (fst (run_in_pool env stage job vs 0 s))).
Proof.
  intros Hstage Hfresh. revert job s.
  induction Hfresh as [|view rest Hview Hrest IH]; intros job s; simpl.
  { split; constructor. }
  assert (Hload : negb ((if pool_stale_load env (trace s) job then 0 else 0) =? 0)
                  = false) by (by destruct (pool_stale_load env (trace s) job)).
  rewrite Hload.
  specialize (Hstage (pool_worker env (trace s) job) view s Hview).
  destruct (stage _ view s) as [view' s1]. simpl in Hstage.
  destruct Hstage as [Hnone Hst]. rewrite Hnone.
  destruct (IH (S job) s1) as [Hc HQ].
  destruct (run_in_pool env stage (S job) rest 0 s1) as [[rest' s2] c].
  simpl in *. split; [done|]. by constructor.
Qed.

Lemma fan_out_all_succeed (w : Writer) tid
    (stage : ThreadId -> ViewInfo -> World -> ViewInfo * World) st (s : World) :
  (forall t view s0, exception view = None ->
                     succeeded_with st (fst (stage t view s0))) ->
  Forall (fun view => exception view = None) (views w) ->
  snd (fan_out env w tid stage s) = false
  /\ Forall (succeeded_with st) (fst (fst (fan_out env w tid stage s))).
Proof.
  intros Hstage Hfresh. unfold fan_out. destruct (1 <? pool_size w).
  - destruct (run_in_pool_all_succeed stage st 0 (views w) s Hstage Hfresh)
      as [Hc HQ].
    destruct (run_in_pool env stage 0 (views w) 0 s) as [[vs' s'] c].
    simpl in *. by subst.
  - apply run_sequentially_all_succeed; [|done]. intros view s0. apply Hstage.
Qed.

(** X19.  When no collaborator throws (no sink call, no validation, no
    select stream) and no view holds an exception, every method returns:
    writePrefix leaves every view with status WRITTEN_PREFIX, write with
    WRITTEN_BLOCK (unless the duplicate gate keeps it from the views) and
    writeSuffix with WRITTEN_SUFFIX, in both scheduling modes, and no view
    holds an exception afterwards. *)
Theorem insert_without_errors (w : Writer) (tid : ThreadId)
    (handled : option Exception) (block : Block) (s : World) :
  (forall tr ev, answer env tr ev = None) ->
  (forall b, validateArraySizes env b = None) ->
  (forall ctx q b rows bytes sink,
      snd (view_stream env ctx q b rows bytes sink) = None) ->
  Forall (fun view => exception view = None) (views w) ->
  (fst (fst (writePrefix env w tid handled s)) = Returned
   /\ Forall (succeeded_with WRITTEN_PREFIX)
        (views (snd (fst (writePrefix env w tid handled s)))))
  /\ (fst (fst (write env w tid block s)) = Returned
      /\ Forall (fun view => exception view = None)
           (views (snd (fst (write env w tid block s))))
      /\ (negb (deduplicate_blocks_in_dependent_materialized_views (context w))
            && replicated_output w
            && lastBlockIsDuplicate env
                 (trace (snd (write_to_destination env w block s))) = false ->
          Forall (succeeded_with WRITTEN_BLOCK)
            (views (snd (fst (write env w tid block s))))))
  /\ (fst (fst (writeSuffix env w tid s)) = Returned
      /\ Forall (succeeded_with WRITTEN_SUFFIX)
           (views (snd (fst (writeSuffix env w tid s))))).
Proof.
  intros Hans Hvalid Hstream Hfresh. split; [|split].
  - unfold writePrefix, invoke. rewrite Hans.
    assert (Hout : (if output w then (None, emit OutputWritePrefix s) else (None, s))
                   = (@None Exception, if output w then emit OutputWritePrefix s else s))
      by (by destruct (output w)).
    rewrite Hout.
    destruct (run_sequentially_all_succeed (process_prefix env tid) WRITTEN_PREFIX
                (views w) (if output w then emit OutputWritePrefix s else s))
      as [Hf HQ]; [|done|].
    { intros view s0 Hv. apply run_stage_succeeds; [|done].
      intros s3. apply Hans. }
    destruct (run_sequentially _ (views w) _) as [[vs' s2] failed].
    simpl in *. by subst.
  - unfold write. rewrite Hvalid.
    assert (Hdest : fst (write_to_destination env w block s) = Returned).
    { unfold write_to_destination, invoke. rewrite !Hans.
      by destruct (is_live_view (storage w)), (output w). }
    destruct (write_to_destination env w block s) as [o s1].
    simpl in Hdest. subst o. cbn [snd].
    unfold push_to_views. destruct (views w) as [|v vs] eqn:Hviews.
    { simpl. rewrite Hviews. repeat split; constructor. }
    destruct (_ && _) eqn:Hgate.
    { simpl. rewrite Hviews. split; [done|]. split; [done|]. done. }
    destruct (fan_out_all_succeed w tid (fun t => process env w t block)
                WRITTEN_BLOCK s1) as [Hf HQ].
    { intros t view s0 Hv. apply run_stage_succeeds; [|done].
      intros s3. by apply process_body_succeeds. }
    { by rewrite Hviews. }
    destruct (fan_out env w tid _ s1) as [[vs' s2] happened].
    simpl in *. subst happened. simpl. split; [done|]. split; [|done].
    eapply Forall_impl; [exact HQ|]. by intros view [Hnone _].
  - unfold writeSuffix, invoke. rewrite Hans.
    assert (Hout : (if output w then (None, emit OutputWriteSuffix s) else (None, s))
                   = (@None Exception, if output w then emit OutputWriteSuffix s else s))
      by (by destruct (output w)).
    rewrite Hout.
    destruct (views w) as [|v vs] eqn:Hviews.
    { simpl. rewrite Hviews. split; constructor. }
    destruct (fan_out_all_succeed w tid (process_suffix env) WRITTEN_SUFFIX
                (if output w then emit OutputWriteSuffix s else s)) as [Hf HQ].
    { intros t view s0 Hv. apply run_stage_succeeds; [|done].
      intros s3. apply Hans. }
    { by rewrite Hviews. }
    destruct (fan_out env w tid _ _) as [[vs' s2] happened].
    simpl in *. by subst.
Qed.

End Coverage.

(** ** The further properties on concrete inserts *)

(** The constructor on db.src, whose dependents are of the three kinds. *)
Example mixed_writer_views :
  map (fun view => (table_id view, type (runtime_stats view), query view))
      (views Cases.mixed_writer)
  = [("db.plain", DEFAULT, None);
     ("db.lv", LIVE, Some "SELECT count() FROM db.t");
     ("db.mv1", MATERIALIZED, Some "SELECT * FROM db.t")]%string
  /\ map out (views Cases.mixed_writer)
     = [PushingToViews "db.plain"
          (set_insert_deduplicate false Scenario.settings) false;
        PushingToViews "db.lv"
          (set_insert_deduplicate false Scenario.settings) true;
        InsertInto "db.inner1" ["n.a"; "n.b"]
          (set_insert_deduplicate false Scenario.settings)]%string
  /\ table_locks Cases.mixed_writer = ["db.src"; "db.mv1"]%string.
Proof. repeat split; vm_compute; reflexivity. Qed.


(** Witness for C4: the flush of db.mv2 throws, and no flush throws. *)
Lemma flush_stops_at_first_error_witness :
  ((flush_calls Scenario.writer : list Scenario.Event)
   = [OutputFlush; ViewOutFlush "db.mv1"]
       ++ ViewOutFlush "db.mv2" :: [ViewOutFlush "db.mv3"]
   /\ calls_return Scenario.mv2_flush_fails (trace Scenario.start)
        [OutputFlush; ViewOutFlush "db.mv1"] = true
   /\ answer Scenario.mv2_flush_fails
        (trace Scenario.start ++ [OutputFlush; ViewOutFlush "db.mv1"])
        (ViewOutFlush "db.mv2") = Some Scenario.boom
   /\ flush Scenario.mv2_flush_fails Scenario.writer Scenario.start
      = (Threw Scenario.boom,
         {| current_thread := current_thread Scenario.start;
            trace := trace Scenario.start
                     ++ [OutputFlush; ViewOutFlush "db.mv1"]
                     ++ [ViewOutFlush "db.mv2"] |}))
  /\ calls_return Scenario.quiet (trace Scenario.start)
       (flush_calls Scenario.writer) = true
  /\ flush Scenario.quiet Scenario.writer Scenario.start
     = (Returned,
        {| current_thread := current_thread Scenario.start;
           trace := trace Scenario.start ++ flush_calls Scenario.writer |}).
Proof.
  split; [|split; [vm_compute; reflexivity|]].
  - split; [vm_compute; reflexivity|].
    split; [vm_compute; reflexivity|].
    split; [vm_compute; reflexivity|].
    apply (proj1 (flush_stops_at_first_error Scenario.mv2_flush_fails
                    Scenario.writer Scenario.start)
             [OutputFlush; ViewOutFlush "db.mv1"] (ViewOutFlush "db.mv2")
             [ViewOutFlush "db.mv3"] Scenario.boom);
      vm_compute; reflexivity.
  - apply (proj2 (flush_stops_at_first_error Scenario.quiet Scenario.writer
                    Scenario.start)).
    vm_compute. reflexivity.
Defined.

(** Witness for X1: storage->write throws after the three views of db.t
    are bound.  The slot of thread 0 held 7; the constructor leaves it as a
    ~ThreadStatus left it. *)
Lemma constructor_restores_current_thread_on_return_witness :
  let r := construct_or_throw Scenario.quiet Scenario.catalog
             Cases.destination_fails (Scenario.table "db.t") Scenario.settings
             false 0%nat Scenario.start in
  fst r = inl Scenario.boom
  /\ current_thread Scenario.start !! 0%nat = Some 7%nat
  /\ current_thread (snd r) !! 0%nat = None
  /\ trace (snd r) = trace Scenario.start
  /\ exists slot,
       left_by_destructor Scenario.quiet Scenario.catalog Cases.destination_fails
         0 (length (getDependencies Scenario.catalog
                      (storage_id (Scenario.table "db.t")))) slot
       /\ current_thread (snd r)
          = assign_slot 0%nat slot (current_thread Scenario.start).
Proof.
  intros r.
  split; [vm_compute; reflexivity|].
  split; [vm_compute; reflexivity|].
  split; [vm_compute; reflexivity|].
  pose proof (constructor_restores_current_thread_on_return Scenario.quiet
                Scenario.catalog Cases.destination_fails
                (Scenario.table "db.t") Scenario.settings false 0%nat
                Scenario.start) as [Htr Hthrow].
  split; [exact Htr|]. exact Hthrow.
Defined.

(** Witness for X9: the insert into db.t when nothing throws. *)
Lemma returning_write_logs_nothing_witness :
  extends_by (fun ev => negb (is_log ev)) Scenario.start
    (snd (write Scenario.quiet Scenario.writer 0%nat Scenario.good_block
            Scenario.start)).
Proof.
  apply (returning_write_logs_nothing Scenario.quiet Scenario.writer 0%nat
           Scenario.good_block Scenario.start).
  vm_compute. reflexivity.
Defined.

(** Witness for X11: the block stage of the plain dependent db.plain. *)
Lemma view_without_query_gets_the_block_witness :
  trace (snd (process Scenario.quiet Cases.mixed_writer 0%nat Scenario.good_block
                Cases.plain_view Scenario.start))
  = trace Scenario.start
    ++ [SetLastRusage 200%nat]
    ++ (if block_has_columns Scenario.quiet Scenario.good_block
        then [ViewOutWrite (table_id Cases.plain_view) Scenario.good_block]
        else [])
    ++ [UpdatePerformanceCounters 200%nat]
  /\ (block_has_columns Scenario.quiet Scenario.good_block = false ->
      exception (fst (process Scenario.quiet Cases.mixed_writer 0%nat
                        Scenario.good_block Cases.plain_view Scenario.start))
      = exception Cases.plain_view
      /\ status (runtime_stats
                   (fst (process Scenario.quiet Cases.mixed_writer 0%nat
                           Scenario.good_block Cases.plain_view Scenario.start)))
         = WRITTEN_BLOCK).
Proof.
  apply (view_without_query_gets_the_block Scenario.quiet Cases.mixed_writer
           0%nat Scenario.good_block Cases.plain_view Scenario.start);
    vm_compute; reflexivity.
Defined.

(** Witness for X14: 256 views in the pool, every sink throwing and every
    load stale: all 256 views fail, exception_happened is not set and write
    returns. *)
Lemma pool_counts_failures_modulo_256_witness :
  snd (fan_out Cases.racing Cases.crowd_writer 0%nat
         (fun t => process Cases.racing Cases.crowd_writer t Scenario.good_block)
         Scenario.start)
  = negb (N.of_nat
            (count_failed
               (fst (fst (fan_out Cases.racing Cases.crowd_writer 0%nat
                            (fun t => process Cases.racing Cases.crowd_writer t
                                        Scenario.good_block)
                            Scenario.start))))
          mod 256 =? 0)
  /\ count_failed
       (views (snd (fst (write Cases.racing Cases.crowd_writer 0%nat
                           Scenario.good_block Scenario.start)))) = 256%nat
  /\ fst (fst (write Cases.racing Cases.crowd_writer 0%nat Scenario.good_block
                 Scenario.start)) = Returned.
Proof.
  split; [|split; vm_compute; reflexivity].
  apply (pool_counts_failures_modulo_256 Cases.racing Cases.crowd_writer 0%nat).
  - vm_compute. reflexivity.
  - intros tr j. reflexivity.
Defined.

(** Witness for X16: the writeSuffix that follows the failed write. *)
Lemma suffix_logs_views_once_witness :
  let fanned := fan_out Scenario.mv2_fails Scenario.writer_after_write 0%nat
                  (process_suffix Scenario.mv2_fails)
                  Scenario.after_output_suffix in
  let w' := set_views (fst (fst fanned)) Scenario.writer_after_write in
  snd (fst (writeSuffix Scenario.mv2_fails Scenario.writer_after_write 0%nat
              Scenario.after_write)) = w'
  /\ snd (writeSuffix Scenario.mv2_fails Scenario.writer_after_write 0%nat
            Scenario.after_write)
     = log_query_views Scenario.mv2_fails w' (snd (fst fanned))
  /\ fst (fst (writeSuffix Scenario.mv2_fails Scenario.writer_after_write 0%nat
                 Scenario.after_write)) <> Terminated.
Proof.
  apply (suffix_logs_views_once Scenario.mv2_fails Scenario.writer_after_write
           0%nat Scenario.after_write Scenario.after_output_suffix).
  - vm_compute. reflexivity.
  - vm_compute. discriminate.
Defined.

(** Witness for X17: the insert into db.alone, which has no dependents. *)
Lemma writer_without_views_only_drives_direct_sink_witness :
  let direct ev :=
    if output Cases.lonely_writer
    then invoke Scenario.quiet ev Scenario.start else (None, Scenario.start) in
  writePrefix Scenario.quiet Cases.lonely_writer 0%nat None Scenario.start
  = (outcome_of (fst (direct OutputWritePrefix)), Cases.lonely_writer,
     snd (direct OutputWritePrefix))
  /\ (validateArraySizes Scenario.quiet Scenario.good_block = None ->
      write Scenario.quiet Cases.lonely_writer 0%nat Scenario.good_block
        Scenario.start
      = (fst (write_to_destination Scenario.quiet Cases.lonely_writer
                Scenario.good_block Scenario.start),
         Cases.lonely_writer,
         snd (write_to_destination Scenario.quiet Cases.lonely_writer
                Scenario.good_block Scenario.start)))
  /\ writeSuffix Scenario.quiet Cases.lonely_writer 0%nat Scenario.start
     = (outcome_of (fst (direct OutputWriteSuffix)), Cases.lonely_writer,
        snd (direct OutputWriteSuffix))
  /\ flush Scenario.quiet Cases.lonely_writer Scenario.start
     = (outcome_of (fst (direct OutputFlush)), snd (direct OutputFlush)).
Proof.
  apply (writer_without_views_only_drives_direct_sink Scenario.quiet
           Cases.lonely_writer 0%nat None Scenario.good_block Scenario.start).
  vm_compute. reflexivity.
Defined.

(** Witness for X18: the insert into db.t when the direct sink throws. *)
Lemma direct_sink_error_skips_views_witness :
  writePrefix Cases.direct_fails Scenario.writer 0%nat None Scenario.start
  = (Threw Scenario.boom, Scenario.writer, emit OutputWritePrefix Scenario.start)
  /\ write Cases.direct_fails Scenario.writer 0%nat Scenario.good_block
       Scenario.start
     = (Threw Scenario.boom, Scenario.writer,
        emit (OutputWrite Scenario.good_block) Scenario.start)
  /\ writeSuffix Cases.direct_fails Scenario.writer 0%nat Scenario.start
     = (Threw Scenario.boom, Scenario.writer,
        emit OutputWriteSuffix Scenario.start)
  /\ flush Cases.direct_fails Scenario.writer Scenario.start
     = (Threw Scenario.boom, emit OutputFlush Scenario.start).
Proof.
  destruct (direct_sink_error_skips_views Cases.direct_fails Scenario.writer
              0%nat None Scenario.good_block Scenario.start
              ltac:(vm_compute; reflexivity) ltac:(vm_compute; reflexivity))
    as (Hp & Hw & Hs & Hf).
  split; [|split; [|split]].
  - apply Hp. reflexivity.
  - apply Hw; vm_compute; reflexivity.
  - apply Hs. reflexivity.
  - apply Hf. reflexivity.
Defined.

(** Witness for X19: the insert into db.t when nothing throws. *)
Lemma insert_without_errors_witness :
  (fst (fst (writePrefix Cases.lenient Scenario.writer 0%nat None Scenario.start))
   = Returned
   /\ Forall (succeeded_with WRITTEN_PREFIX)
        (views (snd (fst (writePrefix Cases.lenient Scenario.writer 0%nat None
                            Scenario.start)))))
  /\ (fst (fst (write Cases.lenient Scenario.writer 0%nat Scenario.good_block
                  Scenario.start)) = Returned
      /\ Forall (fun view => exception view = None)
           (views (snd (fst (write Cases.lenient Scenario.writer 0%nat
                               Scenario.good_block Scenario.start))))
      /\ (negb (deduplicate_blocks_in_dependent_materialized_views
                  (context Scenario.writer))
            && replicated_output Scenario.writer
            && lastBlockIsDuplicate Cases.lenient
                 (trace (snd (write_to_destination Cases.lenient Scenario.writer
                                Scenario.good_block Scenario.start))) = false ->
          Forall (succeeded_with WRITTEN_BLOCK)
            (views (snd (fst (write Cases.lenient Scenario.writer 0%nat
                                Scenario.good_block Scenario.start))))))
  /\ (fst (fst (writeSuffix Cases.lenient Scenario.writer 0%nat Scenario.start))
      = Returned
      /\ Forall (succeeded_with WRITTEN_SUFFIX)
           (views (snd (fst (writeSuffix Cases.lenient Scenario.writer 0%nat
                               Scenario.start))))).
Proof.
  apply (insert_without_errors Cases.lenient Scenario.writer 0%nat None
           Scenario.good_block Scenario.start).
  - intros tr ev. reflexivity.
  - intros b. reflexivity.
  - intros ctx q b rows bytes sink. reflexivity.
  - vm_compute. repeat constructor.
Defined.
